(** * getopt_p: a POSIX getopt() as a single header file

    A shallow embedding of [getopt] from [getopt_p.h] and the properties of
    its scanning state machine.

    The C function keeps its state in four globals ([optarg], [optind],
    [opterr], [optopt]) and one function-static ([arg_idx]); here they are
    the fields of one record that every call takes and returns.  Reads
    through [argv] and [opt_str] are checked: a read outside a buffer, a
    read through a null pointer and a signed increment past [INT_MAX] are
    undefined in C and are results of their own here ([Fault]). *)

From Stdlib Require Import ZArith List String Ascii Bool Lia.
Import ListNotations.

Local Open Scope string_scope.
Local Open Scope list_scope.
Local Open Scope Z_scope.

(** ** Results of a computation that may be undefined in C *)

Inductive fault : Type :=
| OutOfBounds   (* read outside an array *)
| NullPointer   (* read through a null pointer *)
| IntOverflow.  (* signed [int] arithmetic past INT_MAX *)

Inductive res (A : Type) : Type :=
| Ok (a : A)
| Fault (f : fault).

Arguments Ok {A} a.
Arguments Fault {A} f.

Definition bind {A B : Type} (m : res A) (k : A -> res B) : res B :=
  match m with
  | Ok a => k a
  | Fault f => Fault f
  end.

Notation "x <- m ;; k" := (bind m (fun x => k))
  (at level 61, m at next level, right associativity).

(** ** Machine integers and characters *)

(** [int] is 32 bits wide on the platform the implementation section is
    built for (Windows). *)
Definition INT_MAX : Z := 2147483647.

(** [x + 1] on an [int]. *)
Definition int_succ (x : Z) : res Z :=
  if x <? INT_MAX then Ok (x + 1) else Fault IntOverflow.

Definition NUL : ascii := Ascii.zero.

(** Conversion [char] to [int]; plain [char] is signed on the platform, so
    bytes from 128 up become negative. *)
Definition int_of_char (a : ascii) : Z :=
  let n := Z.of_N (N_of_ascii a) in
  if n <? 128 then n else n - 256.

(** Conversion [int] to [char], as [strchr] and [(char)option_char] do. *)
Definition char_of_int (c : Z) : ascii :=
  ascii_of_N (Z.to_N (c mod 256)).

(** [unsigned char] value of a byte, as [strcmp] compares them. *)
Definition uchar (a : ascii) : Z := Z.of_N (N_of_ascii a).

(** ** C strings

    A [string] [s] stands for the character array holding the bytes of [s]
    followed by a terminating NUL: offsets [0 .. length s] can be read. *)

Definition char_at (s : string) (i : Z) : res ascii :=
  if i <? 0 then Fault OutOfBounds
  else match String.get (Z.to_nat i) s with
       | Some a => Ok a
       | None => if i =? Z.of_nat (String.length s) then Ok NUL
                 else Fault OutOfBounds
       end.

(** The text a [char *] at the start of the array denotes: the bytes before
    the first NUL. *)
Fixpoint cstr (s : string) : string :=
  match s with
  | EmptyString => EmptyString
  | String a s' => if Ascii.eqb a NUL then EmptyString else String a (cstr s')
  end.

(** The array seen from offset [n] on. *)
Fixpoint drop (n : nat) (s : string) : string :=
  match n, s with
  | O, _ => s
  | S n', EmptyString => EmptyString
  | S n', String _ s' => drop n' s'
  end.

(** [strcmp]: zero, negative or positive. *)
Fixpoint strcmp (s1 s2 : string) : Z :=
  match s1, s2 with
  | EmptyString, EmptyString => 0
  | EmptyString, String b _ => 0 - uchar b
  | String a _, EmptyString => uchar a
  | String a s1', String b s2' =>
      if Ascii.eqb a b
      then if Ascii.eqb a NUL then 0 else strcmp s1' s2'
      else uchar a - uchar b
  end.

(** [strchr s c]: offset of the first byte equal to [(char)c], the
    terminator included; [None] is the null pointer. *)
Fixpoint strchr (s : string) (c : Z) : option Z :=
  match s with
  | EmptyString => if Ascii.eqb (char_of_int c) NUL then Some 0 else None
  | String a s' =>
      if Ascii.eqb a (char_of_int c) then Some 0
      else if Ascii.eqb a NUL then None
      else option_map Z.succ (strchr s' c)
  end.

(** ** The argument vector *)

(** An entry of [argv] is a null pointer or a C string. *)
Definition arg_vector : Type := list (option string).

(** [argv[i]] *)
Definition argv_at (argv : arg_vector) (i : Z) : res (option string) :=
  if i <? 0 then Fault OutOfBounds
  else match nth_error argv (Z.to_nat i) with
       | Some e => Ok e
       | None => Fault OutOfBounds
       end.

(** [argv[i][j]] *)
Definition arg_char (argv : arg_vector) (i j : Z) : res ascii :=
  e <- argv_at argv i ;;
  match e with
  | None => Fault NullPointer
  | Some tok => char_at tok j
  end.

(** ** Global state *)

(** A pointer into [argv]: entry [p_elem], offset [p_off]. *)
Record ptr : Type := { p_elem : Z; p_off : Z }.

(** One line written to [stderr]: the message and the option character; the
    program name in front of it comes from the platform. *)
Record diag : Type := { d_msg : string; d_opt : ascii }.

Record state : Type := {
  optarg : option ptr;   (* Pointer into argv to return option argument *)
  optind : Z;            (* Index in argv of next element to be processed *)
  opterr : Z;            (* Flag to indicate if getopt() prints errors *)
  optopt : Z;            (* Variable to return erroneous option character *)
  arg_idx : Z;           (* Character index into current argv entry *)
  stderr : list diag     (* what has been printed *)
}.

Definition set_optarg (p : option ptr) (g : state) : state :=
  {| optarg := p; optind := optind g; opterr := opterr g;
     optopt := optopt g; arg_idx := arg_idx g; stderr := stderr g |}.

Definition set_optind (i : Z) (g : state) : state :=
  {| optarg := optarg g; optind := i; opterr := opterr g;
     optopt := optopt g; arg_idx := arg_idx g; stderr := stderr g |}.

Definition set_optopt (c : Z) (g : state) : state :=
  {| optarg := optarg g; optind := optind g; opterr := opterr g;
     optopt := c; arg_idx := arg_idx g; stderr := stderr g |}.

Definition set_arg_idx (j : Z) (g : state) : state :=
  {| optarg := optarg g; optind := optind g; opterr := opterr g;
     optopt := optopt g; arg_idx := j; stderr := stderr g |}.

Definition put_stderr (d : diag) (g : state) : state :=
  {| optarg := optarg g; optind := optind g; opterr := opterr g;
     optopt := optopt g; arg_idx := arg_idx g; stderr := stderr g ++ [d] |}.

(** The initial values of the globals. *)
Definition initial : state :=
  {| optarg := None; optind := 1; opterr := 1; optopt := 63;
     arg_idx := 0; stderr := [] |}.

(** The text [optarg] points at. *)
Definition optarg_text (argv : arg_vector) (g : state) : option string :=
  match optarg g with
  | None => None
  | Some p =>
      match argv_at argv (p_elem p) with
      | Ok (Some tok) => Some (cstr (drop (Z.to_nat (p_off p)) tok))
      | _ => None
      end
  end.

(** ** getopt

    The function is split where the C text has its blocks; the line numbers
    are those of [getopt_p.h]. *)

Definition getopt_p_option_unknown : Z := 63.   (* '?' *)
Definition getopt_p_option_missing : Z := 58.   (* ':' *)

(** Lines 273-293; the line goes to [stderr] when [opterr] is set and the
    specification string does not begin with ':'. *)
Definition getopt_p_print_err (opt_str msg : string) (option_char : Z)
    (g : state) : res state :=
  h <- char_at opt_str 0 ;;
  if negb (opterr g =? 0) && negb (Ascii.eqb h ":")
  then Ok (put_stderr {| d_msg := msg; d_opt := char_of_int option_char |} g)
  else Ok g.

(** [optind++; arg_idx = 0;] *)
Definition next_entry (g : state) : res state :=
  i <- int_succ (optind g) ;;
  Ok (set_arg_idx 0 (set_optind i g)).

(** [arg_idx++; if (argv[optind][arg_idx] == '\0') { optind++; arg_idx = 0; }] *)
Definition next_char (argv : arg_vector) (g : state) : res state :=
  j <- int_succ (arg_idx g) ;;
  let g := set_arg_idx j g in
  r <- arg_char argv (optind g) (arg_idx g) ;;
  if Ascii.eqb r NUL then next_entry g else Ok g.

(** Either the function has returned, or control goes on. *)
Inductive flow : Type :=
| Return (r : Z) (g : state)
| Continue (g : state).

(** Lines 205-217: the block run when [arg_idx == 0]. *)
Definition new_entry (argc : Z) (argv : arg_vector) (g : state) : res flow :=
  if optind g >=? argc then Ok (Return (-1) g)
  else
    e <- argv_at argv (optind g) ;;
    match e with
    | None => Ok (Return (-1) g)
    | Some tok =>
        a <- char_at tok 0 ;;
        if negb (Ascii.eqb a "-") then Ok (Return (-1) g)
        else if strcmp tok "-" =? 0 then Ok (Return (-1) g)
        else if strcmp tok "--" =? 0 then
          i <- int_succ (optind g) ;;
          Ok (Return (-1) (set_optind i g))
        else
          j <- int_succ (arg_idx g) ;;
          Ok (Continue (set_arg_idx j g))
    end.

(** Lines 237-257 and 269: the option requires an argument. *)
Definition option_argument (argc : Z) (argv : arg_vector) (opt_str : string)
    (c : Z) (g : state) : res (Z * state) :=
  j <- int_succ (arg_idx g) ;;
  r <- arg_char argv (optind g) j ;;
  if negb (Ascii.eqb r NUL) then
    let g := set_optarg (Some {| p_elem := optind g; p_off := j |}) g in
    g <- next_entry g ;;
    Ok (c, g)
  else
    i <- int_succ (optind g) ;;
    if i <? argc then
      let g := set_optind i g in
      e <- argv_at argv (optind g) ;;
      let g := set_optarg
                 match e with
                 | Some _ => Some {| p_elem := optind g; p_off := 0 |}
                 | None => None
                 end g in
      g <- next_entry g ;;
      Ok (c, g)
    else
      g <- getopt_p_print_err opt_str "argument required for option" c g ;;
      g <- next_entry g ;;
      h <- char_at opt_str 0 ;;
      if Ascii.eqb h ":" then Ok (getopt_p_option_missing, g)
      else Ok (getopt_p_option_unknown, g).

(** Lines 219-269: from "Get option character from argv entry" on. *)
Definition scan_option (argc : Z) (argv : arg_vector) (opt_str : string)
    (g : state) : res (Z * state) :=
  a <- arg_char argv (optind g) (arg_idx g) ;;
  let c := int_of_char a in
  let g := set_optopt c g in
  let invalid :=
    g <- getopt_p_print_err opt_str "invalid option" c g ;;
    g <- next_char argv g ;;
    Ok (getopt_p_option_unknown, g) in
  match strchr opt_str c with
  | None => invalid
  | Some k =>
      if c =? 58 then invalid
      else
        n <- char_at opt_str (k + 1) ;;
        if Ascii.eqb n ":" then option_argument argc argv opt_str c g
        else
          g <- next_char argv g ;;
          Ok (c, set_optarg None g)
  end.

(** Lines 198-270. *)
Definition getopt (argc : Z) (argv : arg_vector) (opt_str : string)
    (g : state) : res (Z * state) :=
  let g := set_optarg None g in
  f <- (if arg_idx g =? 0 then new_entry argc argv g else Ok (Continue g)) ;;
  match f with
  | Return r g => Ok (r, g)
  | Continue g => scan_option argc argv opt_str g
  end.

(** [n] calls in a row with the same arguments: the values returned, in
    order, and the state after the last call. *)
Fixpoint getopt_calls (n : nat) (argc : Z) (argv : arg_vector)
    (opt_str : string) (g : state) : res (list Z * state) :=
  match n with
  | O => Ok ([], g)
  | S n' =>
      p <- getopt argc argv opt_str g ;;
      q <- getopt_calls n' argc argv opt_str (snd p) ;;
      Ok (fst p :: fst q, snd q)
  end.

(** ** Vocabulary of the properties *)

(** What the specification string says about a character, looked up the way
    [getopt] does: [strchr] for its first occurrence, then the byte after
    it. *)
Inductive kind : Type :=
| Unknown        (* not in the string, or the reserved ':' *)
| Flag           (* in the string, no ':' after it *)
| WithArgument.  (* in the string, ':' after it *)

Definition option_kind (opt_str : string) (a : ascii) : res kind :=
  match strchr opt_str (int_of_char a) with
  | None => Ok Unknown
  | Some k =>
      if Ascii.eqb a ":" then Ok Unknown
      else
        n <- char_at opt_str (k + 1) ;;
        Ok (if Ascii.eqb n ":" then WithArgument else Flag)
  end.

(** The bytes of the text of a C string. *)
Definition chars (s : string) : list ascii := list_ascii_of_string (cstr s).

(** First byte of the array. *)
Definition first_char (s : string) : ascii :=
  match s with
  | EmptyString => NUL
  | String a _ => a
  end.

(** [stderr] after [getopt_p_print_err opt_str msg c]. *)
Definition printed (opt_str msg : string) (c : Z) (g : state) : list diag :=
  if negb (opterr g =? 0) && negb (Ascii.eqb (first_char opt_str) ":")
  then stderr g ++ [{| d_msg := msg; d_opt := char_of_int c |}]
  else stderr g.

(** An entry that holds options: it begins with '-' and is neither "-" nor
    "--". *)
Definition option_entry (tok : string) : Prop :=
  first_char tok = "-"%char /\ cstr tok <> "-" /\ cstr tok <> "--".

(** The values an [int] can be incremented from in this call. *)
Definition no_overflow (argc : Z) (g : state) (j : Z) : Prop :=
  argc <= INT_MAX /\ optind g < INT_MAX /\ j < INT_MAX.

(** A call in state [g] scans the character [a] at offset [j] of the entry
    [tok]: either it starts on an entry that holds options and looks at
    offset 1, or it resumes inside an entry at the offset it had stopped
    at. *)
Inductive scans (argc : Z) (argv : arg_vector) (g : state)
    (tok : string) (j : Z) (a : ascii) : Prop :=
| scans_new :
    arg_idx g = 0 -> optind g < argc ->
    argv_at argv (optind g) = Ok (Some tok) ->
    option_entry tok -> j = 1 -> char_at tok 1 = Ok a ->
    scans argc argv g tok j a
| scans_resume :
    arg_idx g = j -> j <> 0 ->
    argv_at argv (optind g) = Ok (Some tok) ->
    char_at tok j = Ok a -> a <> NUL ->
    scans argc argv g tok j a.

(** A call in state [g] finds no option entry under the index. *)
Inductive no_more (argc : Z) (argv : arg_vector) (g : state) : Prop :=
| no_more_end : arg_idx g = 0 -> argc <= optind g -> no_more argc argv g
| no_more_null :
    arg_idx g = 0 -> argv_at argv (optind g) = Ok None -> no_more argc argv g
| no_more_operand tok :
    arg_idx g = 0 -> argv_at argv (optind g) = Ok (Some tok) ->
    first_char tok <> "-"%char -> no_more argc argv g
| no_more_dash tok :
    arg_idx g = 0 -> argv_at argv (optind g) = Ok (Some tok) ->
    cstr tok = "-" -> no_more argc argv g.

(** A call in state [g] finds "--" under the index. *)
Definition end_marker (argc : Z) (argv : arg_vector) (g : state) : Prop :=
  arg_idx g = 0 /\ optind g < argc /\
  exists tok, argv_at argv (optind g) = Ok (Some tok) /\ cstr tok = "--".

(** The states of one scan: it starts with index 1 and offset 0, and goes
    from call to call. *)
Inductive reachable (argc : Z) (argv : arg_vector) : state -> Prop :=
| reach_start g :
    optind g = 1 -> arg_idx g = 0 -> reachable argc argv g
| reach_call g opt_str r g' :
    reachable argc argv g ->
    getopt argc argv opt_str g = Ok (r, g') ->
    reachable argc argv g'.

(** A vector [getopt] can be handed: [argc] entries at least, and counts and
    lengths that fit an [int]. *)
Definition vector_ok (argc : Z) (argv : arg_vector) : Prop :=
  argc <= INT_MAX /\ argc <= Z.of_nat (List.length argv) /\
  Forall (fun e => match e with
                   | Some tok => Z.of_nat (String.length tok) < INT_MAX
                   | None => True
                   end) argv.

(** Where a call that resumes inside an entry may stand. *)
Definition inside_entry (argc : Z) (argv : arg_vector) (g : state) : Prop :=
  0 < arg_idx g /\ optind g < argc /\
  exists tok a, argv_at argv (optind g) = Ok (Some tok) /\
                first_char tok = "-"%char /\
                char_at tok (arg_idx g) = Ok a /\ a <> NUL.

(** The cursor is at the start of an entry or on a character inside the
    entry under the index. *)
Definition cursor_ok (argv : arg_vector) (g : state) : Prop :=
  arg_idx g = 0 \/
  exists tok a, argv_at argv (optind g) = Ok (Some tok) /\
                char_at tok (arg_idx g) = Ok a /\ a <> NUL.

(** The cases of one call: what it returns and the state it leaves. *)
Inductive call (argc : Z) (argv : arg_vector) (opt_str : string) (g : state) :
    Z -> state -> Prop :=
| call_no_more :
    no_more argc argv g ->
    call argc argv opt_str g (-1) (set_optarg None g)
| call_end_marker :
    end_marker argc argv g ->
    call argc argv opt_str g (-1)
      (set_optind (optind g + 1) (set_optarg None g))
| call_unknown tok j a n :
    scans argc argv g tok j a ->
    option_kind opt_str a = Ok Unknown ->
    char_at tok (j + 1) = Ok n ->
    call argc argv opt_str g getopt_p_option_unknown
      {| optarg := None;
         optind := if Ascii.eqb n NUL then optind g + 1 else optind g;
         opterr := opterr g;
         optopt := int_of_char a;
         arg_idx := if Ascii.eqb n NUL then 0 else j + 1;
         stderr := printed opt_str "invalid option" (int_of_char a) g |}
| call_flag tok j a n :
    scans argc argv g tok j a ->
    option_kind opt_str a = Ok Flag ->
    char_at tok (j + 1) = Ok n ->
    call argc argv opt_str g (int_of_char a)
      {| optarg := None;
         optind := if Ascii.eqb n NUL then optind g + 1 else optind g;
         opterr := opterr g;
         optopt := int_of_char a;
         arg_idx := if Ascii.eqb n NUL then 0 else j + 1;
         stderr := stderr g |}
| call_glued tok j a n :
    scans argc argv g tok j a ->
    option_kind opt_str a = Ok WithArgument ->
    char_at tok (j + 1) = Ok n -> n <> NUL ->
    call argc argv opt_str g (int_of_char a)
      {| optarg := Some {| p_elem := optind g; p_off := j + 1 |};
         optind := optind g + 1;
         opterr := opterr g;
         optopt := int_of_char a;
         arg_idx := 0;
         stderr := stderr g |}
| call_next tok j a e :
    scans argc argv g tok j a ->
    option_kind opt_str a = Ok WithArgument ->
    char_at tok (j + 1) = Ok NUL ->
    optind g + 1 < argc ->
    argv_at argv (optind g + 1) = Ok e ->
    call argc argv opt_str g (int_of_char a)
      {| optarg := match e with
                   | Some _ => Some {| p_elem := optind g + 1; p_off := 0 |}
                   | None => None
                   end;
         optind := optind g + 2;
         opterr := opterr g;
         optopt := int_of_char a;
         arg_idx := 0;
         stderr := stderr g |}
| call_missing tok j a :
    scans argc argv g tok j a ->
    option_kind opt_str a = Ok WithArgument ->
    char_at tok (j + 1) = Ok NUL ->
    argc <= optind g + 1 ->
    call argc argv opt_str g
      (if Ascii.eqb (first_char opt_str) ":"
       then getopt_p_option_missing else getopt_p_option_unknown)
      {| optarg := None;
         optind := optind g + 1;
         opterr := opterr g;
         optopt := int_of_char a;
         arg_idx := 0;
         stderr := printed opt_str "argument required for option"
                     (int_of_char a) g |}.

(** A character that is no option: the reserved ':' or one that does not
    occur in the specification string. *)
Definition unknown_option_char (opt_str : string) (a : ascii) : Prop :=
  a = ":"%char \/ ~ In a (chars opt_str).

(** What [getopt] returns for a character that takes no argument. *)
Definition returned_for (opt_str : string) (a : ascii) : Z :=
  match option_kind opt_str a with
  | Ok Unknown => getopt_p_option_unknown
  | _ => int_of_char a
  end.

(** "'?' is returned exactly when the scanned character is unknown", for the
    calls made in state [g]. *)
Definition unknown_exactly_when (argc : Z) (argv : arg_vector)
    (opt_str : string) (g : state) : Prop :=
  forall tok j a r g',
    scans argc argv g tok j a ->
    getopt argc argv opt_str g = Ok (r, g') ->
    (r = getopt_p_option_unknown <-> unknown_option_char opt_str a).

(** "Once -1 has been returned, every later call returns -1 and leaves the
    state as it is", for the calls made from state [g] on. *)
Definition end_is_final (argc : Z) (argv : arg_vector) (opt_str : string)
    (g : state) : Prop :=
  forall g1,
    getopt argc argv opt_str g = Ok (-1, g1) ->
    getopt argc argv opt_str g1 = Ok (-1, g1).

(** A character of an entry that [getopt] passes over without looking for
    an argument: a declared flag or an unknown character. *)
Definition takes_no_argument (opt_str : string) (a : ascii) : Prop :=
  a <> NUL /\
  (option_kind opt_str a = Ok Flag \/ option_kind opt_str a = Ok Unknown).

(** What one call may have written: nothing, or one line about the
    character in [optopt], and then it returns '?'. *)
Definition wrote (opt_str : string) (g : state) (r : Z) (g' : state) : Prop :=
  stderr g' = stderr g \/
  (opterr g <> 0 /\ first_char opt_str <> ":"%char /\
   r = getopt_p_option_unknown /\
   exists msg,
     (msg = "invalid option" \/ msg = "argument required for option") /\
     stderr g'
     = stderr g ++ [{| d_msg := msg; d_opt := char_of_int (optopt g') |}]).

(** What is still ahead of the cursor: the bytes, terminators included, of
    the entries from the index on, less the offset.  Every call that scans
    makes it smaller. *)
Definition entry_size (e : option string) : nat :=
  match e with
  | Some tok => S (String.length tok)
  | None => 1%nat
  end.

Fixpoint vector_size (argv : arg_vector) : nat :=
  match argv with
  | [] => 0%nat
  | e :: rest => (entry_size e + vector_size rest)%nat
  end.

Definition ahead (argv : arg_vector) (g : state) : nat :=
  (vector_size (skipn (Z.to_nat (optind g)) argv) - Z.to_nat (arg_idx g))%nat.

(** ** The line of a diagnostic

    [getopt_p_print_err], lines 278-290: the text that goes to [stderr] for
    a recorded [diag]. *)

(** A new line. *)
Definition nl : string := String "010" EmptyString.

(** [strrchr s c]: offset of the last byte equal to [(char)c] in the text of
    [s], the terminator included; [None] is the null pointer. *)
Fixpoint strrchr (s : string) (c : Z) : option Z :=
  match s with
  | EmptyString => if Ascii.eqb (char_of_int c) NUL then Some 0 else None
  | String a s' =>
      if Ascii.eqb a NUL
      then if Ascii.eqb (char_of_int c) NUL then Some 0 else None
      else match strrchr s' c with
           | Some k => Some (Z.succ k)
           | None => if Ascii.eqb a (char_of_int c) then Some 0 else None
           end
  end.

(** Lines 279-287.  [pgmptr] is what [_get_pgmptr] hands back: the path of
    the program, or nothing when it fails.  The name is the path behind its
    last backslash, or "Error". *)
Definition short_name (pgmptr : option string) : string :=
  match pgmptr with
  | Some name_ptr =>
      match strrchr name_ptr 92 with
      | Some k => drop (Z.to_nat (k + 1)) name_ptr
      | None => name_ptr
      end
  | None => "Error"
  end.

(** Lines 289-290: [fprintf(stderr, "%s : %s '-%c'\n", name_ptr, msg,
    (char)option_char)]. *)
Definition diag_line (pgmptr : option string) (d : diag) : string :=
  append (cstr (short_name pgmptr))
    (append " : "
       (append (cstr (d_msg d))
          (append " '-" (String (d_opt d) (append "'" nl))))).

(** * example.c

    [main] and its two helpers.  What the program prints is a list of
    pieces of text, each with the stream it goes to, in the order of the
    calls.  The loops take fuel: [None] is "not done yet". *)

Inductive stream : Type := to_stdout | to_stderr.

Definition event : Type := (stream * string)%type.

(** A double quote. *)
Definition dq : string := String "034" EmptyString.

Definition usage_line : string :=
  append "Usage : example [-h] [-v] [-a] [-1] [-f <filename>] [non-option-arguments]" nl.

(** Lines 65-71. *)
Definition usage_err : list event :=
  [ (to_stderr, usage_line);
    (to_stderr, append "For help : example -h" nl) ].

(** Lines 73-85. *)
Definition usage_full : list event :=
  [ (to_stdout, usage_line);
    (to_stdout, append "    -h Display this help text" nl);
    (to_stdout, append "    -v Display the program version number" nl);
    (to_stdout, append "    -a Set the 'a' flag for the program" nl);
    (to_stdout, append "    -1 Set the '1' flag for the program" nl);
    (to_stdout, append "    -f Specify the filename to operate on" nl);
    (to_stdout,
     append "non-option-arguments : other arguments not parsed by getopt()" nl) ].

(** The argument of a [%s]: a null pointer is undefined. *)
Definition printf_s (p : option string) : res string :=
  match p with
  | Some s => Ok s
  | None => Fault NullPointer
  end.

(** The line of the [default] case. *)
Definition unknown_return_line (c : Z) : string :=
  append "UNKNOWN RETURN VALUE '" (String (char_of_int c) (append "'" nl)).

(** Lines 22-49: the [switch] on what [getopt] has returned. *)
Definition example_case (argv : arg_vector) (c : Z) (g : state)
    : res (list event) :=
  if c =? 63 then
    Ok ((to_stderr,
         append "Error : unknown option '"
           (String (char_of_int (optopt g)) (append "'" nl))) :: usage_err)
  else if c =? 58 then
    Ok ((to_stderr,
         append "Error : missing argument to option '"
           (String (char_of_int (optopt g)) (append "'" nl))) :: usage_err)
  else if c =? 104 then Ok usage_full
  else if c =? 118 then Ok [(to_stdout, append "Version 1.01" nl)]
  else if c =? 97 then
    Ok [(to_stdout, append "You supplied the option flag 'a'" nl)]
  else if c =? 49 then
    Ok [(to_stdout, append "You supplied the option flag '1'" nl)]
  else if c =? 102 then
    t <- printf_s (optarg_text argv g) ;;
    Ok [(to_stdout,
         append "You supplied the filename " (append dq (append t (append dq nl))))]
  else Ok [(to_stderr, unknown_return_line c)].

Definition example_opt_str : string := ":hva1f:".

Definition set_opterr (e : Z) (g : state) : state :=
  {| optarg := optarg g; optind := optind g; opterr := e;
     optopt := optopt g; arg_idx := arg_idx g; stderr := stderr g |}.

(** What a call of [getopt] has written itself, as it shows on [stderr]. *)
Definition getopt_said (pgmptr : option string) (g g' : state) : list event :=
  map (fun d => (to_stderr, diag_line pgmptr d))
    (skipn (List.length (stderr g)) (stderr g')).

(** Lines 21-50: [while ((c = getopt(argc, argv, opt_str)) != -1)]. *)
Fixpoint example_loop (fuel : nat) (pgmptr : option string) (argc : Z)
    (argv : arg_vector) (g : state) : res (option (list event * state)) :=
  match fuel with
  | O => Ok None
  | S fuel' =>
      p <- getopt argc argv example_opt_str g ;;
      let c := fst p in
      let g1 := snd p in
      if c =? -1 then Ok (Some (getopt_said pgmptr g g1, g1))
      else
        out <- example_case argv c g1 ;;
        q <- example_loop fuel' pgmptr argc argv g1 ;;
        Ok (option_map
              (fun r => (getopt_said pgmptr g g1 ++ out ++ fst r, snd r)) q)
  end.

(** Lines 55-58: [while (optind < argc)]. *)
Fixpoint example_operands (fuel : nat) (argc : Z) (argv : arg_vector)
    (g : state) : res (option (list event * state)) :=
  match fuel with
  | O => Ok None
  | S fuel' =>
      if optind g <? argc then
        e <- argv_at argv (optind g) ;;
        t <- printf_s (option_map cstr e) ;;
        i <- int_succ (optind g) ;;
        q <- example_operands fuel' argc argv (set_optind i g) ;;
        Ok (option_map
              (fun r => ((to_stdout, append t " ") :: fst r, snd r)) q)
      else Ok (Some ([], g))
  end.

(** Lines 16-63: [main]; the value is what is printed and the exit
    status. *)
Definition example_main (fuel : nat) (pgmptr : option string) (argc : Z)
    (argv : arg_vector) : res (option (list event * Z)) :=
  let g := set_opterr 0 initial in
  q <- example_loop fuel pgmptr argc argv g ;;
  match q with
  | None => Ok None
  | Some (out, g) =>
      let out := out ++ [(to_stdout, nl)] in
      if optind g <? argc then
        r <- example_operands fuel argc argv g ;;
        match r with
        | None => Ok None
        | Some (rest, _) =>
            Ok (Some (out ++ [(to_stdout, "non-option argv elements : ")]
                          ++ rest ++ [(to_stdout, nl)], 0))
        end
      else Ok (Some (out, 0))
  end.

(** * Properties *)

Example abc_run :
  getopt_calls 4 2 [Some "prog"; Some "-abc"] "abc" initial
  = Ok ([97; 98; 99; -1],
        {| optarg := None; optind := 2; opterr := 1; optopt := 99;
           arg_idx := 0; stderr := [] |}).
Proof. reflexivity. Qed.


(** ** Characters *)

Lemma char_of_int_of_char (a : ascii) : char_of_int (int_of_char a) = a.
Proof. destruct a as [[] [] [] [] [] [] [] []]; reflexivity. Qed.

Lemma int_of_char_inj (a b : ascii) : int_of_char a = int_of_char b -> a = b.
Proof.
  intros H. rewrite <- (char_of_int_of_char a), <- (char_of_int_of_char b).
  now rewrite H.
Qed.

Lemma int_of_char_colon (a : ascii) :
  (int_of_char a =? 58) = Ascii.eqb a ":".
Proof. destruct a as [[] [] [] [] [] [] [] []]; reflexivity. Qed.

Lemma uchar_inj (a b : ascii) : uchar a = uchar b -> a = b.
Proof.
  unfold uchar. intros H. apply N2Z.inj in H.
  rewrite <- (ascii_N_embedding a), <- (ascii_N_embedding b). now rewrite H.
Qed.

Lemma uchar_NUL (a : ascii) : uchar a = 0 -> a = NUL.
Proof. intros H. apply uchar_inj. exact H. Qed.

Lemma eqb_NUL_false (a : ascii) : a <> NUL -> Ascii.eqb a NUL = false.
Proof. intros H. now apply Ascii.eqb_neq. Qed.

(** ** Reading a C string *)

Lemma get_length (s : string) (n : nat) :
  String.get n s = None <-> (String.length s <= n)%nat.
Proof.
  revert n. induction s as [|a s IH]; intros [|n]; simpl;
    try (split; [intros; lia | reflexivity]).
  - split; [discriminate | lia].
  - rewrite IH. lia.
Qed.

Lemma char_at_bounds (s : string) (i : Z) (a : ascii) :
  char_at s i = Ok a -> 0 <= i <= Z.of_nat (String.length s).
Proof.
  unfold char_at. destruct (Z.ltb_spec i 0); [discriminate|].
  destruct (String.get (Z.to_nat i) s) eqn:E.
  - intros _. assert (String.get (Z.to_nat i) s <> None) as N by congruence.
    rewrite get_length in N. lia.
  - destruct (Z.eqb_spec i (Z.of_nat (String.length s))); [lia | discriminate].
Qed.

Lemma char_at_not_NUL (s : string) (i : Z) (a : ascii) :
  char_at s i = Ok a -> a <> NUL -> i < Z.of_nat (String.length s).
Proof.
  intros H N. pose proof (char_at_bounds _ _ _ H) as B.
  unfold char_at in H. destruct (Z.ltb_spec i 0); [discriminate|].
  destruct (String.get (Z.to_nat i) s) eqn:E.
  - assert (String.get (Z.to_nat i) s <> None) as G by congruence.
    rewrite get_length in G. lia.
  - destruct (Z.eqb_spec i (Z.of_nat (String.length s))); [|discriminate].
    congruence.
Qed.

Lemma char_at_total (s : string) (i : Z) :
  0 <= i <= Z.of_nat (String.length s) -> exists a, char_at s i = Ok a.
Proof.
  intros B. unfold char_at. destruct (Z.ltb_spec i 0); [lia|].
  destruct (String.get (Z.to_nat i) s) eqn:E; [eauto|].
  apply get_length in E.
  destruct (Z.eqb_spec i (Z.of_nat (String.length s))); [eauto | lia].
Qed.

Lemma char_at_0 (s : string) :
  char_at s 0 = Ok (first_char s).
Proof. destruct s; reflexivity. Qed.

Lemma char_at_succ (a : ascii) (s : string) (i : Z) :
  0 <= i -> char_at (String a s) (i + 1) = char_at s i.
Proof.
  intros Hi. unfold char_at.
  destruct (Z.ltb_spec (i + 1) 0); [lia|]. destruct (Z.ltb_spec i 0); [lia|].
  replace (Z.to_nat (i + 1)) with (S (Z.to_nat i)) by lia. simpl String.get.
  destruct (String.get (Z.to_nat i) s); [reflexivity|].
  simpl String.length.
  destruct (Z.eqb_spec i (Z.of_nat (String.length s)));
    destruct (Z.eqb_spec (i + 1) (Z.of_nat (S (String.length s))));
    try reflexivity; lia.
Qed.

(** ** strcmp and strchr *)

Lemma strcmp_0 (s1 s2 : string) : strcmp s1 s2 = 0 <-> cstr s1 = cstr s2.
Proof.
  revert s2. induction s1 as [|a s1 IH]; intros [|b s2]; simpl.
  - tauto.
  - destruct (Ascii.eqb_spec b NUL) as [->|N].
    + split; reflexivity.
    + split; [|discriminate]. intros H. exfalso. apply N, uchar_NUL. lia.
  - destruct (Ascii.eqb_spec a NUL) as [->|N].
    + split; reflexivity.
    + split; [|discriminate]. intros H. exfalso. now apply N, uchar_NUL.
  - destruct (Ascii.eqb_spec a b) as [->|N].
    + destruct (Ascii.eqb_spec b NUL); [tauto|].
      rewrite IH. split; [congruence | now injection 1].
    + split.
      * intros H. exfalso. apply N, uchar_inj. lia.
      * destruct (Ascii.eqb_spec a NUL), (Ascii.eqb_spec b NUL);
          try congruence; try discriminate.
Qed.

Lemma strcmp_eqb (s1 s2 : string) :
  cstr s1 <> cstr s2 -> (strcmp s1 s2 =? 0) = false.
Proof. intros H. apply Z.eqb_neq. now rewrite strcmp_0. Qed.

Lemma strchr_bounds (s : string) (c k : Z) :
  strchr s c = Some k -> 0 <= k <= Z.of_nat (String.length s).
Proof.
  revert k. induction s as [|a s IH]; simpl; intros k.
  - destruct (Ascii.eqb _ _); [|discriminate]. injection 1 as <-. lia.
  - destruct (Ascii.eqb a _); [injection 1 as <-; lia|].
    destruct (Ascii.eqb a NUL); [discriminate|].
    destruct (strchr s c) as [k'|]; [|discriminate].
    simpl. injection 1 as <-. specialize (IH k' eq_refl). lia.
Qed.

(** [strchr] finds the byte it was asked for. *)
Lemma strchr_found (s : string) (c k : Z) :
  strchr s c = Some k -> char_at s k = Ok (char_of_int c).
Proof.
  revert k. induction s as [|a s IH]; simpl; intros k.
  - destruct (Ascii.eqb_spec (char_of_int c) NUL) as [E|]; [|discriminate].
    injection 1 as <-. now rewrite E.
  - destruct (Ascii.eqb_spec a (char_of_int c)) as [->|].
    + now injection 1 as <-.
    + destruct (Ascii.eqb a NUL); [discriminate|].
      destruct (strchr s c) as [k'|] eqn:E; [|discriminate].
      simpl. injection 1 as <-. unfold Z.succ.
      rewrite char_at_succ; [auto|]. apply strchr_bounds in E. lia.
Qed.

(** Below a byte other than NUL there is the byte after it to read. *)
Lemma strchr_next (s : string) (a : ascii) (k : Z) :
  strchr s (int_of_char a) = Some k -> a <> NUL ->
  exists n, char_at s (k + 1) = Ok n.
Proof.
  intros H N. pose proof (strchr_bounds _ _ _ H) as B.
  apply strchr_found in H. rewrite char_of_int_of_char in H.
  pose proof (char_at_not_NUL _ _ _ H N). apply char_at_total. lia.
Qed.

(** ** The steps of a call *)

Lemma int_succ_ok (x : Z) : x < INT_MAX -> int_succ x = Ok (x + 1).
Proof. unfold int_succ. intros H. now destruct (Z.ltb_spec x INT_MAX); [|lia]. Qed.

Lemma print_err_ok (opt_str msg : string) (c : Z) (g : state) :
  getopt_p_print_err opt_str msg c g
  = Ok {| optarg := optarg g; optind := optind g; opterr := opterr g;
          optopt := optopt g; arg_idx := arg_idx g;
          stderr := printed opt_str msg c g |}.
Proof.
  unfold getopt_p_print_err, printed. rewrite char_at_0. unfold bind.
  destruct (negb (opterr g =? 0) && negb (Ascii.eqb (first_char opt_str) ":"));
    now destruct g.
Qed.

Lemma arg_char_eq (argv : arg_vector) (i j : Z) (tok : string) :
  argv_at argv i = Ok (Some tok) -> arg_char argv i j = char_at tok j.
Proof. unfold arg_char. now intros ->. Qed.

Lemma option_entry_inv (tok : string) :
  option_entry tok ->
  exists b rest, tok = String "-" (String b rest) /\ b <> NUL /\
                 (b = "-"%char -> first_char rest <> NUL).
Proof.
  intros (H0 & H1 & H2). destruct tok as [|a [|b rest]]; simpl in *.
  - discriminate.
  - subst a. now destruct H1.
  - subst a. exists b, rest. split; [reflexivity|].
    destruct (Ascii.eqb_spec b NUL) as [->|N]; [now destruct H1|].
    split; [assumption|]. intros ->. simpl in H2.
    destruct rest as [|c rest]; simpl in *; [now destruct H2|].
    intros ->. now destruct H2.
Qed.

Lemma option_entry_checks (tok : string) :
  option_entry tok ->
  char_at tok 0 = Ok "-"%char /\ (strcmp tok "-" =? 0) = false /\
  (strcmp tok "--" =? 0) = false.
Proof.
  intros (H0 & H1 & H2). rewrite char_at_0, H0.
  repeat split; apply strcmp_eqb; assumption.
Qed.

Lemma scans_char argc argv g tok j a :
  scans argc argv g tok j a ->
  argv_at argv (optind g) = Ok (Some tok) /\ char_at tok j = Ok a /\
  a <> NUL /\ 0 < j.
Proof.
  intros [H0 Hc Ht He -> Ha | <- Hj Ht Ha N].
  - destruct (option_entry_inv _ He) as (b & rest & -> & N & _).
    change (char_at (String "-" (String b rest)) 1) with (Ok b) in Ha.
    injection Ha as <-. repeat split; auto.
  - apply char_at_bounds in Ha as B. repeat split; auto. lia.
Qed.

(** The character after the scanned one can be read. *)
Lemma scans_next argc argv g tok j a :
  scans argc argv g tok j a -> exists n, char_at tok (j + 1) = Ok n.
Proof.
  intros H. destruct (scans_char _ _ _ _ _ _ H) as (_ & Ha & N & Hj).
  pose proof (char_at_not_NUL _ _ _ Ha N). apply char_at_total. lia.
Qed.

(** A call that scans goes through to "Get option character from argv
    entry" with the offset on the scanned character. *)
Lemma getopt_scans argc argv opt_str g tok j a :
  scans argc argv g tok j a ->
  getopt argc argv opt_str g
  = scan_option argc argv opt_str (set_arg_idx j (set_optarg None g)).
Proof.
  intros [H0 Hc Ht He -> Ha | <- Hj Ht Ha N]; unfold getopt; simpl.
  - rewrite H0. simpl. unfold new_entry. simpl.
    destruct (Z.geb_spec (optind g) argc); [lia|].
    rewrite Ht. simpl.
    destruct (option_entry_checks _ He) as (-> & -> & ->). simpl.
    rewrite H0. reflexivity.
  - destruct (Z.eqb_spec (arg_idx g) 0); [contradiction|]. simpl.
    now destruct g.
Qed.

(** What [scan_option] does with a character of each kind. *)
Lemma scan_option_kind argc argv opt_str g tok a :
  argv_at argv (optind g) = Ok (Some tok) ->
  char_at tok (arg_idx g) = Ok a ->
  scan_option argc argv opt_str g
  = k <- option_kind opt_str a ;;
    let g := set_optopt (int_of_char a) g in
    match k with
    | Unknown =>
        g <- getopt_p_print_err opt_str "invalid option" (int_of_char a) g ;;
        g <- next_char argv g ;;
        Ok (getopt_p_option_unknown, g)
    | Flag =>
        g <- next_char argv g ;;
        Ok (int_of_char a, set_optarg None g)
    | WithArgument => option_argument argc argv opt_str (int_of_char a) g
    end.
Proof.
  intros Ht Ha. unfold scan_option, option_kind.
  rewrite (arg_char_eq _ _ _ _ Ht), Ha. simpl.
  destruct (strchr opt_str (int_of_char a)) as [k|]; [|reflexivity].
  rewrite int_of_char_colon.
  destruct (Ascii.eqb a ":"); [reflexivity|].
  destruct (char_at opt_str (k + 1)) as [n|f]; [|reflexivity]. simpl.
  now destruct (Ascii.eqb n ":").
Qed.

(** [next_char] after the scanned character. *)
Lemma next_char_eq argv g tok n :
  argv_at argv (optind g) = Ok (Some tok) ->
  arg_idx g < INT_MAX -> (n = NUL -> optind g < INT_MAX) ->
  char_at tok (arg_idx g + 1) = Ok n ->
  next_char argv g
  = Ok (if Ascii.eqb n NUL
        then set_arg_idx 0 (set_optind (optind g + 1) (set_arg_idx (arg_idx g + 1) g))
        else set_arg_idx (arg_idx g + 1) g).
Proof.
  intros Ht Hj Hi Hn. unfold next_char. rewrite (int_succ_ok _ Hj). simpl.
  rewrite (arg_char_eq _ _ _ _ Ht), Hn. simpl.
  destruct (Ascii.eqb_spec n NUL) as [E|]; [|reflexivity].
  unfold next_entry. simpl. now rewrite (int_succ_ok _ (Hi E)).
Qed.

(** ** The outcome of a call, case by case *)

Section Outcomes.

Variables (argc : Z) (argv : arg_vector) (opt_str : string).
Variables (g : state) (tok : string) (j : Z) (a : ascii).
Hypothesis Hscan : scans argc argv g tok j a.
Hypothesis Hj : j < INT_MAX.

Let at_char : state := set_arg_idx j (set_optarg None g).

Lemma getopt_at_char :
  getopt argc argv opt_str g
  = k <- option_kind opt_str a ;;
    let g := set_optopt (int_of_char a) at_char in
    match k with
    | Unknown =>
        g <- getopt_p_print_err opt_str "invalid option" (int_of_char a) g ;;
        g <- next_char argv g ;;
        Ok (getopt_p_option_unknown, g)
    | Flag =>
        g <- next_char argv g ;;
        Ok (int_of_char a, set_optarg None g)
    | WithArgument => option_argument argc argv opt_str (int_of_char a) g
    end.
Proof.
  destruct (scans_char _ _ _ _ _ _ Hscan) as (Ht & Ha & _).
  rewrite (getopt_scans _ _ _ _ _ _ _ Hscan).
  now apply scan_option_kind with (tok := tok).
Qed.

(** An unknown option character: '?' is returned and the cursor moves one
    character on, to the next entry when that was the last one. *)
Lemma getopt_unknown (n : ascii) :
  option_kind opt_str a = Ok Unknown ->
  char_at tok (j + 1) = Ok n ->
  (n = NUL -> optind g < INT_MAX) ->
  getopt argc argv opt_str g
  = Ok (getopt_p_option_unknown,
        {| optarg := None;
           optind := if Ascii.eqb n NUL then optind g + 1 else optind g;
           opterr := opterr g;
           optopt := int_of_char a;
           arg_idx := if Ascii.eqb n NUL then 0 else j + 1;
           stderr := printed opt_str "invalid option" (int_of_char a) g |}).
Proof.
  intros Hk Hn Hi. destruct (scans_char _ _ _ _ _ _ Hscan) as (Ht & Ha & _).
  rewrite getopt_at_char, Hk. simpl. rewrite print_err_ok. simpl.
  erewrite next_char_eq; [ | exact Ht | exact Hj | exact Hi | exact Hn ].
  simpl. now destruct (Ascii.eqb n NUL).
Qed.

(** An option without argument: it is returned and the cursor moves one
    character on, to the next entry when that was the last one. *)
Lemma getopt_flag (n : ascii) :
  option_kind opt_str a = Ok Flag ->
  char_at tok (j + 1) = Ok n ->
  (n = NUL -> optind g < INT_MAX) ->
  getopt argc argv opt_str g
  = Ok (int_of_char a,
        {| optarg := None;
           optind := if Ascii.eqb n NUL then optind g + 1 else optind g;
           opterr := opterr g;
           optopt := int_of_char a;
           arg_idx := if Ascii.eqb n NUL then 0 else j + 1;
           stderr := stderr g |}).
Proof.
  intros Hk Hn Hi. destruct (scans_char _ _ _ _ _ _ Hscan) as (Ht & Ha & _).
  rewrite getopt_at_char, Hk. simpl.
  erewrite next_char_eq; [ | exact Ht | exact Hj | exact Hi | exact Hn ].
  simpl. now destruct (Ascii.eqb n NUL).
Qed.

(** An option with its argument in the rest of the entry. *)
Lemma getopt_glued (n : ascii) :
  option_kind opt_str a = Ok WithArgument ->
  char_at tok (j + 1) = Ok n -> n <> NUL ->
  optind g < INT_MAX ->
  getopt argc argv opt_str g
  = Ok (int_of_char a,
        {| optarg := Some {| p_elem := optind g; p_off := j + 1 |};
           optind := optind g + 1;
           opterr := opterr g;
           optopt := int_of_char a;
           arg_idx := 0;
           stderr := stderr g |}).
Proof.
  intros Hk Hn N Hi. destruct (scans_char _ _ _ _ _ _ Hscan) as (Ht & Ha & _).
  rewrite getopt_at_char, Hk. simpl. unfold option_argument. simpl.
  rewrite (int_succ_ok _ Hj). simpl.
  rewrite (arg_char_eq _ _ _ _ Ht), Hn. simpl.
  rewrite (eqb_NUL_false _ N). simpl. unfold next_entry. simpl.
  now rewrite (int_succ_ok _ Hi).
Qed.

(** An option with its argument in the next entry. *)
Lemma getopt_next (e : option string) :
  option_kind opt_str a = Ok WithArgument ->
  char_at tok (j + 1) = Ok NUL ->
  optind g + 1 < argc ->
  argv_at argv (optind g + 1) = Ok e ->
  optind g + 1 < INT_MAX ->
  getopt argc argv opt_str g
  = Ok (int_of_char a,
        {| optarg := match e with
                     | Some _ => Some {| p_elem := optind g + 1; p_off := 0 |}
                     | None => None
                     end;
           optind := optind g + 2;
           opterr := opterr g;
           optopt := int_of_char a;
           arg_idx := 0;
           stderr := stderr g |}).
Proof.
  intros Hk Hn Hc He Hi. destruct (scans_char _ _ _ _ _ _ Hscan) as (Ht & Ha & _).
  rewrite getopt_at_char, Hk. simpl. unfold option_argument. simpl.
  rewrite (int_succ_ok _ Hj). simpl.
  rewrite (arg_char_eq _ _ _ _ Ht), Hn. simpl.
  rewrite int_succ_ok by lia. simpl.
  destruct (Z.ltb_spec (optind g + 1) argc); [|lia].
  rewrite He. simpl. unfold next_entry. simpl.
  rewrite int_succ_ok by lia. simpl.
  now replace (optind g + 1 + 1) with (optind g + 2) by lia.
Qed.

(** An option whose argument is missing. *)
Lemma getopt_missing :
  option_kind opt_str a = Ok WithArgument ->
  char_at tok (j + 1) = Ok NUL ->
  argc <= optind g + 1 ->
  optind g < INT_MAX ->
  getopt argc argv opt_str g
  = Ok (if Ascii.eqb (first_char opt_str) ":"
        then getopt_p_option_missing else getopt_p_option_unknown,
        {| optarg := None;
           optind := optind g + 1;
           opterr := opterr g;
           optopt := int_of_char a;
           arg_idx := 0;
           stderr := printed opt_str "argument required for option"
                       (int_of_char a) g |}).
Proof.
  intros Hk Hn Hc Hi. destruct (scans_char _ _ _ _ _ _ Hscan) as (Ht & Ha & _).
  rewrite getopt_at_char, Hk. simpl. unfold option_argument. simpl.
  rewrite (int_succ_ok _ Hj). simpl.
  rewrite (arg_char_eq _ _ _ _ Ht), Hn. simpl.
  rewrite (int_succ_ok _ Hi). simpl.
  destruct (Z.ltb_spec (optind g + 1) argc); [lia|].
  rewrite print_err_ok. simpl. unfold next_entry. simpl.
  rewrite (int_succ_ok _ Hi). simpl. rewrite char_at_0. simpl.
  now destruct (Ascii.eqb (first_char opt_str) ":").
Qed.

End Outcomes.

(** A call that finds no option entry returns -1 and only clears
    [optarg]. *)
Lemma getopt_no_more argc argv opt_str g :
  no_more argc argv g ->
  getopt argc argv opt_str g = Ok (-1, set_optarg None g).
Proof.
  intros H. unfold getopt. simpl.
  assert (arg_idx g = 0) as -> by now destruct H.
  simpl. unfold new_entry. simpl.
  destruct (Z.geb_spec (optind g) argc) as [|Hlt]; [reflexivity|].
  destruct H as [_ H | _ Ht | tok _ Ht H | tok _ Ht H]; try lia;
    rewrite Ht; simpl; try reflexivity; rewrite char_at_0; simpl.
  - apply Ascii.eqb_neq in H. now rewrite H.
  - destruct (Ascii.eqb (first_char tok) "-"); [|reflexivity]. simpl.
    assert (strcmp tok "-" = 0) as -> by now apply strcmp_0.
    reflexivity.
Qed.

(** A call that finds "--" steps over it and returns -1. *)
Lemma getopt_end_marker argc argv opt_str g :
  end_marker argc argv g -> optind g < INT_MAX ->
  getopt argc argv opt_str g
  = Ok (-1, set_optind (optind g + 1) (set_optarg None g)).
Proof.
  intros (H0 & Hc & tok & Ht & Htok) Hi. unfold getopt. simpl.
  rewrite H0. simpl. unfold new_entry. simpl.
  destruct (Z.geb_spec (optind g) argc); [lia|].
  rewrite Ht. simpl. rewrite char_at_0.
  assert (first_char tok = "-"%char) as ->
    by (destruct tok as [|b tok]; simpl in *; [discriminate|];
        destruct (Ascii.eqb b NUL); congruence).
  simpl. rewrite strcmp_eqb by (rewrite Htok; discriminate).
  assert (strcmp tok "--" = 0) as -> by now apply strcmp_0.
  simpl. rewrite int_succ_ok by lia. reflexivity.
Qed.

(** ** Every call is one of the cases *)

Lemma cstr_dec (s t : string) : {cstr s = t} + {cstr s <> t}.
Proof. apply string_dec. Qed.

(** Which case a call is in is decided by the state and the vector. *)
Lemma getopt_looks_at argc argv opt_str g r g' :
  cursor_ok argv g ->
  getopt argc argv opt_str g = Ok (r, g') ->
  no_more argc argv g \/ end_marker argc argv g \/
  exists tok j a, scans argc argv g tok j a.
Proof.
  intros Hok H. destruct (Z.eq_dec (arg_idx g) 0) as [H0|Hj].
  - destruct (Z.le_gt_cases argc (optind g)) as [|Hc];
      [left; now apply no_more_end|].
    unfold getopt, new_entry in H. simpl in H. rewrite H0 in H. simpl in H.
    destruct (Z.geb_spec (optind g) argc); [lia|].
    destruct (argv_at argv (optind g)) as [[tok|]|f] eqn:Ht;
      [ | left; now apply no_more_null | discriminate ].
    destruct (ascii_dec (first_char tok) "-") as [Hd|Hd];
      [ | left; now apply no_more_operand with tok ].
    destruct (cstr_dec tok "-"); [left; now apply no_more_dash with tok|].
    destruct (cstr_dec tok "--");
      [right; left; split; [|split]; eauto|].
    right; right.
    assert (option_entry tok) as He by (repeat split; assumption).
    destruct (option_entry_inv _ He) as (b & rest & E & _).
    exists tok, 1, b. apply scans_new; auto. now rewrite E.
  - destruct Hok as [|(tok & a & Ht & Ha & N)]; [contradiction|].
    right; right. exists tok, (arg_idx g), a. now apply scans_resume.
Qed.

Lemma scans_cursor_ok argc argv g tok j a :
  scans argc argv g tok j a -> cursor_ok argv g.
Proof.
  intros [H0 _ _ _ _ _ | <- Hj Ht Ha N]; [now left | right; eauto].
Qed.

(** A call scans one character only. *)
Lemma scans_functional argc argv g tok j a tok' j' a' :
  scans argc argv g tok j a -> scans argc argv g tok' j' a' ->
  tok = tok' /\ j = j' /\ a = a'.
Proof.
  intros [H0 _ Ht _ -> Ha | <- Hj Ht Ha _] [H0' _ Ht' _ -> Ha' | <- Hj' Ht' Ha' _];
    try congruence;
    rewrite Ht in Ht'; injection Ht' as <-; rewrite Ha in Ha';
    injection Ha' as <-; auto.
Qed.

(** A call that scans finds an option entry. *)
Lemma scans_not_no_more argc argv g tok j a :
  scans argc argv g tok j a -> ~ no_more argc argv g.
Proof.
  intros [H0 Hc Ht (Hd & H1 & H2) _ _ | <- Hj _ _ _]
         [H0' H | H0' Ht' | tok' H0' Ht' H | tok' H0' Ht' H];
    try contradiction; try lia; try congruence.
Qed.

Lemma scans_not_end_marker argc argv g tok j a :
  scans argc argv g tok j a -> ~ end_marker argc argv g.
Proof.
  intros [H0 Hc Ht (Hd & H1 & H2) _ _ | <- Hj _ _ _]
         (H0' & _ & tok' & Ht' & H); [congruence | contradiction].
Qed.

(** A call that scans and returns has incremented the offset. *)
Lemma getopt_scans_int argc argv opt_str g tok j a r g' :
  scans argc argv g tok j a ->
  getopt argc argv opt_str g = Ok (r, g') ->
  j < INT_MAX /\ exists k, option_kind opt_str a = Ok k.
Proof.
  intros Hs H. rewrite (getopt_at_char _ _ _ _ _ _ _ Hs) in H.
  destruct (option_kind opt_str a) as [k|f]; [|discriminate].
  split; [|eauto]. destruct (Z.lt_ge_cases j INT_MAX) as [|Hge]; [assumption|].
  exfalso. simpl in H.
  destruct k; try rewrite print_err_ok in H;
    unfold next_char, option_argument, int_succ in H; simpl in H;
    destruct (Z.ltb_spec j INT_MAX); try lia; discriminate.
Qed.

(** What a call that scans and returns has incremented, it could. *)
Lemma getopt_scans_bounds argc argv opt_str g tok j a r g' n :
  scans argc argv g tok j a ->
  getopt argc argv opt_str g = Ok (r, g') ->
  char_at tok (j + 1) = Ok n ->
  j < INT_MAX /\
  exists k,
    option_kind opt_str a = Ok k /\
    (n = NUL \/ k = WithArgument -> optind g < INT_MAX) /\
    (k = WithArgument -> n = NUL -> optind g + 1 < argc ->
     optind g + 1 < INT_MAX /\ exists e, argv_at argv (optind g + 1) = Ok e).
Proof.
  intros Hs H Hn.
  destruct (getopt_scans_int _ _ _ _ _ _ _ _ _ Hs H) as (Hj & k & Hk).
  split; [assumption|]. exists k. split; [assumption|].
  destruct (scans_char _ _ _ _ _ _ Hs) as (Ht & Ha & _).
  rewrite (getopt_at_char _ _ _ _ _ _ _ Hs), Hk in H. simpl in H.
  destruct k.
  - rewrite print_err_ok in H. unfold next_char in H. simpl in H.
    rewrite (int_succ_ok _ Hj) in H. simpl in H.
    rewrite (arg_char_eq _ _ _ _ Ht), Hn in H. simpl in H.
    split; [|discriminate]. intros [->|E]; [|discriminate].
    simpl in H. unfold next_entry, int_succ in H. simpl in H.
    destruct (Z.ltb_spec (optind g) INT_MAX); [assumption|discriminate].
  - unfold next_char in H. simpl in H.
    rewrite (int_succ_ok _ Hj) in H. simpl in H.
    rewrite (arg_char_eq _ _ _ _ Ht), Hn in H. simpl in H.
    split; [|discriminate]. intros [->|E]; [|discriminate].
    simpl in H. unfold next_entry, int_succ in H. simpl in H.
    destruct (Z.ltb_spec (optind g) INT_MAX); [assumption|discriminate].
  - unfold option_argument in H. simpl in H.
    rewrite (int_succ_ok _ Hj) in H. simpl in H.
    rewrite (arg_char_eq _ _ _ _ Ht), Hn in H. simpl in H.
    assert (optind g < INT_MAX) as Hi.
    { destruct (Ascii.eqb n NUL); simpl in H;
        unfold next_entry, int_succ in H; simpl in H;
        destruct (Z.ltb_spec (optind g) INT_MAX); auto; discriminate. }
    split; [auto|]. intros _ -> Hlt. simpl in H.
    rewrite (int_succ_ok _ Hi) in H. simpl in H.
    destruct (Z.ltb_spec (optind g + 1) argc); [|lia].
    destruct (argv_at argv (optind g + 1)) as [e|f]; [|discriminate].
    simpl in H. unfold next_entry, int_succ in H. simpl in H.
    destruct (Z.ltb_spec (optind g + 1) INT_MAX); [eauto|discriminate].
Qed.

Lemma getopt_end_marker_bound argc argv opt_str g r g' :
  end_marker argc argv g ->
  getopt argc argv opt_str g = Ok (r, g') -> optind g < INT_MAX.
Proof.
  intros He H. destruct (Z.lt_ge_cases (optind g) INT_MAX) as [|Hge]; [assumption|].
  exfalso. destruct He as (H0 & Hc & tok & Ht & Htok).
  unfold getopt in H. simpl in H. rewrite H0 in H. simpl in H.
  unfold new_entry in H. simpl in H.
  destruct (Z.geb_spec (optind g) argc); [lia|].
  rewrite Ht in H. simpl in H. rewrite char_at_0 in H.
  assert (first_char tok = "-"%char) as E
    by (destruct tok as [|b tok]; simpl in *; [discriminate|];
        destruct (Ascii.eqb b NUL); congruence).
  rewrite E in H. simpl in H.
  rewrite strcmp_eqb in H by (rewrite Htok; discriminate).
  assert (strcmp tok "--" = 0) as E2 by now apply strcmp_0.
  rewrite E2 in H. simpl in H. unfold int_succ in H.
  destruct (Z.ltb_spec (optind g) INT_MAX); [lia|discriminate].
Qed.

(** Every call that returns from a state with a sound cursor is one of the
    cases. *)
Lemma getopt_call argc argv opt_str g r g' :
  cursor_ok argv g ->
  getopt argc argv opt_str g = Ok (r, g') ->
  call argc argv opt_str g r g'.
Proof.
  intros Hok H.
  destruct (getopt_looks_at _ _ _ _ _ _ Hok H) as [Hn | [He | (tok & j & a & Hs)]].
  - rewrite (getopt_no_more _ _ _ _ Hn) in H. injection H as <- <-.
    now apply call_no_more.
  - pose proof (getopt_end_marker_bound _ _ _ _ _ _ He H) as Hi.
    rewrite (getopt_end_marker _ _ _ _ He Hi) in H. injection H as <- <-.
    now apply call_end_marker.
  - destruct (scans_next _ _ _ _ _ _ Hs) as (n & Hn).
    destruct (getopt_scans_bounds _ _ _ _ _ _ _ _ _ _ Hs H Hn)
      as (Hj & k & Hk & Hi & Hnext).
    destruct k.
    + rewrite (getopt_unknown _ _ _ _ _ _ _ Hs Hj n Hk Hn) in H by auto.
      injection H as <- <-. now apply call_unknown with tok.
    + rewrite (getopt_flag _ _ _ _ _ _ _ Hs Hj n Hk Hn) in H by auto.
      injection H as <- <-. now apply call_flag with tok.
    + destruct (ascii_dec n NUL) as [->|N].
      * destruct (Z.lt_ge_cases (optind g + 1) argc) as [Hlt|Hge].
        -- destruct (Hnext eq_refl eq_refl Hlt) as (Hi2 & e & He).
           rewrite (getopt_next _ _ _ _ _ _ _ Hs Hj e Hk Hn Hlt He Hi2) in H.
           injection H as <- <-. now apply call_next with tok j.
        -- rewrite (getopt_missing _ _ _ _ _ _ _ Hs Hj Hk Hn) in H by auto.
           injection H as <- <-. now apply call_missing with tok j.
      * rewrite (getopt_glued _ _ _ _ _ _ _ Hs Hj n Hk Hn N) in H by auto.
        injection H as <- <-. now apply call_glued with tok n.
Qed.

(** The outcome of a call that scans the character [a] at offset [j]. *)
Lemma getopt_scan_cases argc argv opt_str g tok j a r g' :
  scans argc argv g tok j a ->
  getopt argc argv opt_str g = Ok (r, g') ->
  exists k n,
    option_kind opt_str a = Ok k /\ char_at tok (j + 1) = Ok n /\
    optopt g' = int_of_char a /\ opterr g' = opterr g /\
    match k with
    | Unknown =>
        r = getopt_p_option_unknown /\ optarg g' = None /\
        optind g' = (if Ascii.eqb n NUL then optind g + 1 else optind g) /\
        arg_idx g' = (if Ascii.eqb n NUL then 0 else j + 1)
    | Flag =>
        r = int_of_char a /\ optarg g' = None /\
        optind g' = (if Ascii.eqb n NUL then optind g + 1 else optind g) /\
        arg_idx g' = (if Ascii.eqb n NUL then 0 else j + 1)
    | WithArgument =>
        arg_idx g' = 0 /\
        ((n <> NUL /\ r = int_of_char a /\
          optarg g' = Some {| p_elem := optind g; p_off := j + 1 |} /\
          optind g' = optind g + 1) \/
         (n = NUL /\ optind g + 1 < argc /\ r = int_of_char a /\
          optind g' = optind g + 2 /\
          exists e, argv_at argv (optind g + 1) = Ok e /\
                    optarg g' = match e with
                                | Some _ =>
                                    Some {| p_elem := optind g + 1; p_off := 0 |}
                                | None => None
                                end) \/
         (n = NUL /\ argc <= optind g + 1 /\
          r = (if Ascii.eqb (first_char opt_str) ":"
               then getopt_p_option_missing else getopt_p_option_unknown) /\
          optarg g' = None /\ optind g' = optind g + 1))
    end.
Proof.
  intros Hs H.
  pose proof (getopt_call _ _ _ _ _ _ (scans_cursor_ok _ _ _ _ _ _ Hs) H) as C.
  inversion C as [Hn | He | tok' j' a' n Hs' Hk Hn | tok' j' a' n Hs' Hk Hn
                 | tok' j' a' n Hs' Hk Hn N | tok' j' a' e Hs' Hk Hn Hlt He
                 | tok' j' a' Hs' Hk Hn Hge];
    try (exfalso; now apply (scans_not_no_more _ _ _ _ _ _ Hs));
    try (exfalso; now apply (scans_not_end_marker _ _ _ _ _ _ Hs));
    destruct (scans_functional _ _ _ _ _ _ _ _ _ Hs Hs') as (<- & <- & <-);
    subst; simpl.
  - exists Unknown, n. auto 10.
  - exists Flag, n. auto 10.
  - exists WithArgument, n. auto 10.
  - exists WithArgument, NUL. repeat split; auto. right; left. eauto 10.
  - exists WithArgument, NUL. repeat split; auto. right; right. auto 10.
Qed.

(** ** The specification string *)

Lemma strchr_None (s : string) (a : ascii) :
  a <> NUL -> (strchr s (int_of_char a) = None <-> ~ In a (chars s)).
Proof.
  intros N. unfold chars. induction s as [|b s IH]; simpl;
    rewrite char_of_int_of_char.
  - rewrite (eqb_NUL_false _ N). tauto.
  - destruct (Ascii.eqb_spec b a) as [->|Hb].
    + rewrite (eqb_NUL_false _ N). simpl. split; [discriminate|tauto].
    + destruct (Ascii.eqb_spec b NUL) as [|Hn]; simpl; [tauto|].
      destruct (strchr s (int_of_char a)) as [k|]; simpl.
      * split; [discriminate|]. intros H. exfalso.
        assert (~ In a (list_ascii_of_string (cstr s))) as H' by tauto.
        apply IH in H'. discriminate.
      * split; [|reflexivity]. intros _ [H|H]; [auto|]. now apply IH.
Qed.

Lemma option_kind_unknown (opt_str : string) (a : ascii) :
  a <> NUL ->
  (option_kind opt_str a = Ok Unknown <-> unknown_option_char opt_str a).
Proof.
  intros N. unfold option_kind, unknown_option_char.
  rewrite <- (strchr_None opt_str a N).
  destruct (strchr opt_str (int_of_char a)) as [k|]; [|tauto].
  destruct (Ascii.eqb_spec a ":") as [->|Hc]; [tauto|].
  split.
  - destruct (char_at opt_str (k + 1)) as [n|f]; simpl; [|discriminate].
    now destruct (Ascii.eqb n ":").
  - intros [H|H]; [contradiction|discriminate].
Qed.

(** The kind of a character other than NUL is always defined. *)
Lemma option_kind_total (opt_str : string) (a : ascii) :
  a <> NUL -> exists k, option_kind opt_str a = Ok k.
Proof.
  intros N. unfold option_kind.
  destruct (strchr opt_str (int_of_char a)) as [k|] eqn:E; [|eauto].
  destruct (Ascii.eqb a ":"); [eauto|].
  destruct (strchr_next _ _ _ E N) as (n & ->). simpl. eauto.
Qed.

(** A call that scans a character returns, when the increments fit an
    [int] and the entry behind the scanned one, if [argc] counts it, can be
    read. *)
Lemma getopt_scans_returns argc argv opt_str g tok j a :
  scans argc argv g tok j a -> no_overflow argc g j ->
  (optind g + 1 < argc -> exists e, argv_at argv (optind g + 1) = Ok e) ->
  exists r g', getopt argc argv opt_str g = Ok (r, g').
Proof.
  intros Hs (Hargc & Hi & Hj) Hnext.
  destruct (scans_char _ _ _ _ _ _ Hs) as (_ & _ & N & _).
  destruct (scans_next _ _ _ _ _ _ Hs) as (n & Hn).
  destruct (option_kind_total opt_str a N) as ([| |] & Hk).
  - rewrite (getopt_unknown _ _ _ _ _ _ _ Hs Hj n Hk Hn) by auto. eauto.
  - rewrite (getopt_flag _ _ _ _ _ _ _ Hs Hj n Hk Hn) by auto. eauto.
  - destruct (ascii_dec n NUL) as [->|Nn].
    + destruct (Z.lt_ge_cases (optind g + 1) argc) as [Hlt|Hge].
      * destruct (Hnext Hlt) as (e & He).
        rewrite (getopt_next _ _ _ _ _ _ _ Hs Hj e Hk Hn Hlt He) by lia.
        eauto.
      * rewrite (getopt_missing _ _ _ _ _ _ _ Hs Hj Hk Hn) by auto. eauto.
    + rewrite (getopt_glued _ _ _ _ _ _ _ Hs Hj n Hk Hn Nn) by auto. eauto.
Qed.

(** ** Argument-taking options *)

(** C1: when the scanned character [a] is declared with an argument, the
    argument is the rest of the entry when there is one ([optarg] points
    behind [a], the index moves on by one), else the whole next entry when
    there is one (the index moves on by two); both times [a] is returned. *)
Theorem argument_resolution argc argv opt_str g tok j a :
  scans argc argv g tok j a -> no_overflow argc g j ->
  option_kind opt_str a = Ok WithArgument ->
  (forall n, char_at tok (j + 1) = Ok n -> n <> NUL ->
     let g' := {| optarg := Some {| p_elem := optind g; p_off := j + 1 |};
                  optind := optind g + 1;
                  opterr := opterr g;
                  optopt := int_of_char a;
                  arg_idx := 0;
                  stderr := stderr g |} in
     getopt argc argv opt_str g = Ok (int_of_char a, g') /\
     optarg_text argv g' = Some (cstr (drop (Z.to_nat (j + 1)) tok))) /\
  (forall e, char_at tok (j + 1) = Ok NUL -> optind g + 1 < argc ->
     argv_at argv (optind g + 1) = Ok e ->
     let g' := {| optarg := match e with
                            | Some _ =>
                                Some {| p_elem := optind g + 1; p_off := 0 |}
                            | None => None
                            end;
                  optind := optind g + 2;
                  opterr := opterr g;
                  optopt := int_of_char a;
                  arg_idx := 0;
                  stderr := stderr g |} in
     getopt argc argv opt_str g = Ok (int_of_char a, g') /\
     optarg_text argv g' = option_map cstr e).
Proof.
  intros Hs (Hargc & Hi & Hj) Hk.
  destruct (scans_char _ _ _ _ _ _ Hs) as (Ht & _).
  split.
  - intros n Hn N g'. split.
    + now apply (getopt_glued argc argv opt_str g tok j a Hs Hj n).
    + unfold optarg_text, g'. simpl. now rewrite Ht.
  - intros e Hn Hc He g'. split.
    + apply (getopt_next argc argv opt_str g tok j a Hs Hj e); auto. lia.
    + unfold optarg_text, g'. simpl. destruct e; simpl; [|reflexivity].
      now rewrite He.
Qed.

Lemma argument_resolution_witness :
  (getopt 2 [Some "prog"; Some "-fvalue"] "f:" initial
   = Ok (102, {| optarg := Some {| p_elem := 1; p_off := 2 |}; optind := 2;
                 opterr := 1; optopt := 102; arg_idx := 0; stderr := [] |}) /\
   optarg_text [Some "prog"; Some "-fvalue"]
     {| optarg := Some {| p_elem := 1; p_off := 2 |}; optind := 2;
        opterr := 1; optopt := 102; arg_idx := 0; stderr := [] |}
   = Some "value") /\
  (getopt 3 [Some "prog"; Some "-f"; Some "value"] "f:" initial
   = Ok (102, {| optarg := Some {| p_elem := 2; p_off := 0 |}; optind := 3;
                 opterr := 1; optopt := 102; arg_idx := 0; stderr := [] |}) /\
   optarg_text [Some "prog"; Some "-f"; Some "value"]
     {| optarg := Some {| p_elem := 2; p_off := 0 |}; optind := 3;
        opterr := 1; optopt := 102; arg_idx := 0; stderr := [] |}
   = Some "value").
Proof.
  split.
  - apply (argument_resolution 2 [Some "prog"; Some "-fvalue"] "f:" initial
             "-fvalue" 1 "f") with (n := "v"%char).
    + apply scans_new; try reflexivity.
      repeat split; discriminate.
    + unfold no_overflow, INT_MAX; simpl; lia.
    + reflexivity.
    + reflexivity.
    + discriminate.
  - apply (argument_resolution 3 [Some "prog"; Some "-f"; Some "value"] "f:"
             initial "-f" 1 "f") with (e := Some "value").
    + apply scans_new; try reflexivity.
      repeat split; discriminate.
    + unfold no_overflow, INT_MAX; simpl; lia.
    + reflexivity.
    + reflexivity.
    + reflexivity.
    + reflexivity.
Defined.

(** C2: when the scanned character [a] is declared with an argument, is the
    last one of its entry and no entry follows, ':' is returned if the
    specification string begins with ':' and '?' if not; [optopt] is [a] and
    the index moves past the entry. *)
Theorem missing_argument argc argv opt_str g tok j a :
  scans argc argv g tok j a -> no_overflow argc g j ->
  option_kind opt_str a = Ok WithArgument ->
  char_at tok (j + 1) = Ok NUL ->
  argc <= optind g + 1 ->
  getopt argc argv opt_str g
  = Ok (if Ascii.eqb (first_char opt_str) ":" then 58 else 63,
        {| optarg := None;
           optind := optind g + 1;
           opterr := opterr g;
           optopt := int_of_char a;
           arg_idx := 0;
           stderr := printed opt_str "argument required for option"
                       (int_of_char a) g |}).
Proof.
  intros Hs (Hargc & Hi & Hj) Hk Hn Hc.
  now apply (getopt_missing argc argv opt_str g tok j a Hs Hj).
Qed.

Lemma missing_argument_witness :
  getopt 2 [Some "prog"; Some "-f"] "f:" initial
  = Ok (63, {| optarg := None; optind := 2; opterr := 1; optopt := 102;
               arg_idx := 0;
               stderr := [{| d_msg := "argument required for option";
                             d_opt := "f" |}] |}) /\
  getopt 2 [Some "prog"; Some "-f"] ":f:" initial
  = Ok (58, {| optarg := None; optind := 2; opterr := 1; optopt := 102;
               arg_idx := 0; stderr := [] |}).
Proof.
  split.
  - apply (missing_argument 2 [Some "prog"; Some "-f"] "f:" initial "-f" 1 "f").
    + apply scans_new; try reflexivity.
      repeat split; discriminate.
    + unfold no_overflow, INT_MAX; simpl; lia.
    + reflexivity.
    + reflexivity.
    + discriminate.
  - apply (missing_argument 2 [Some "prog"; Some "-f"] ":f:" initial "-f" 1 "f").
    + apply scans_new; try reflexivity.
      repeat split; discriminate.
    + unfold no_overflow, INT_MAX; simpl; lia.
    + reflexivity.
    + reflexivity.
    + discriminate.
Defined.

(** ** No more options *)

(** C3: a call made at the start of an entry returns -1 and leaves the
    index where it is when the index is not below [argc], when the entry is
    a null pointer, when it does not begin with '-' and when it is "-"; when
    the entry is "--" the call moves the index past it and returns -1. *)
Theorem end_of_options_cases argc argv opt_str g :
  arg_idx g = 0 ->
  let same := {| optarg := None; optind := optind g; opterr := opterr g;
                 optopt := optopt g; arg_idx := 0; stderr := stderr g |} in
  let past := {| optarg := None; optind := optind g + 1; opterr := opterr g;
                 optopt := optopt g; arg_idx := 0; stderr := stderr g |} in
  (argc <= optind g -> getopt argc argv opt_str g = Ok (-1, same)) /\
  (argv_at argv (optind g) = Ok None ->
   getopt argc argv opt_str g = Ok (-1, same)) /\
  (forall tok, argv_at argv (optind g) = Ok (Some tok) ->
     first_char tok <> "-"%char ->
     getopt argc argv opt_str g = Ok (-1, same)) /\
  (forall tok, argv_at argv (optind g) = Ok (Some tok) -> cstr tok = "-" ->
     getopt argc argv opt_str g = Ok (-1, same)) /\
  (forall tok, argv_at argv (optind g) = Ok (Some tok) -> cstr tok = "--" ->
     optind g < argc -> argc <= INT_MAX ->
     getopt argc argv opt_str g = Ok (-1, past)).
Proof.
  intros H0 same past.
  assert (set_optarg None g = same) as Es
    by (unfold same, set_optarg; now rewrite H0).
  assert (set_optind (optind g + 1) (set_optarg None g) = past) as Ep
    by (unfold past, set_optind, set_optarg; simpl; now rewrite H0).
  rewrite <- Es, <- Ep. repeat split.
  - intros H. now apply getopt_no_more, no_more_end.
  - intros H. now apply getopt_no_more, no_more_null.
  - intros tok Ht H. now apply getopt_no_more, no_more_operand with tok.
  - intros tok Ht H. now apply getopt_no_more, no_more_dash with tok.
  - intros tok Ht H Hc Hargc. apply getopt_end_marker; [|lia].
    repeat split; eauto.
Qed.

Lemma end_of_options_cases_witness :
  getopt 3 [Some "prog"; Some "--"; Some "-x"] "x" initial
  = Ok (-1, {| optarg := None; optind := 2; opterr := 1; optopt := 63;
               arg_idx := 0; stderr := [] |}) /\
  getopt 3 [Some "prog"; Some "file"; Some "-x"] "x" initial
  = Ok (-1, {| optarg := None; optind := 1; opterr := 1; optopt := 63;
               arg_idx := 0; stderr := [] |}).
Proof.
  split.
  - apply (end_of_options_cases 3 [Some "prog"; Some "--"; Some "-x"] "x" initial
             eq_refl) with (tok := "--").
    + reflexivity.
    + reflexivity.
    + reflexivity.
    + unfold INT_MAX; lia.
  - destruct (end_of_options_cases 3 [Some "prog"; Some "file"; Some "-x"] "x"
                initial eq_refl) as (_ & _ & H & _).
    apply H with (tok := "file").
    + reflexivity.
    + discriminate.
Defined.

(** ** Unknown options *)

(** C4 as worded does not hold: '?' is also what a missing argument gives
    when the specification string does not begin with ':'.  For "f:" and the
    vector ["prog"; "-f"] the call returns '?' although 'f' occurs in "f:"
    and is not ':'. *)
Lemma unknown_exactly_when_fails :
  ~ unknown_exactly_when 2 [Some "prog"; Some "-f"] "f:" initial.
Proof.
  intros H.
  assert (scans 2 [Some "prog"; Some "-f"] initial "-f" 1 "f") as Hs
    by (apply scans_new; try reflexivity; repeat split; discriminate).
  destruct (H "-f" 1 "f"%char 63 _ Hs eq_refl) as [H' _].
  destruct (H' eq_refl) as [E|E]; [discriminate|].
  apply E. simpl. auto.
Qed.

(** C4, amended: when the scanned character [a] is ':' or does not occur in
    the specification string, '?' is returned whether or not the string
    begins with ':', [optopt] is [a], and the cursor moves past that one
    character (to the next entry only when it was the last of its entry).
    '?' is returned otherwise only for the option character '?' itself and
    for a missing argument when the string does not begin with ':'. *)
Theorem unknown_option_returned argc argv opt_str g tok j a :
  scans argc argv g tok j a -> no_overflow argc g j ->
  (unknown_option_char opt_str a ->
   exists n,
     char_at tok (j + 1) = Ok n /\
     getopt argc argv opt_str g
     = Ok (63,
           {| optarg := None;
              optind := if Ascii.eqb n NUL then optind g + 1 else optind g;
              opterr := opterr g;
              optopt := int_of_char a;
              arg_idx := if Ascii.eqb n NUL then 0 else j + 1;
              stderr := printed opt_str "invalid option" (int_of_char a) g |})) /\
  (forall r g',
     getopt argc argv opt_str g = Ok (r, g') -> r = 63 ->
     unknown_option_char opt_str a \/
     a = "?"%char \/
     (option_kind opt_str a = Ok WithArgument /\
      char_at tok (j + 1) = Ok NUL /\ argc <= optind g + 1 /\
      first_char opt_str <> ":"%char)).
Proof.
  intros Hs (Hargc & Hi & Hlt).
  destruct (scans_char _ _ _ _ _ _ Hs) as (Ht & Ha & N & Hj).
  split.
  - intros Hu. apply (option_kind_unknown opt_str a N) in Hu.
    destruct (scans_next _ _ _ _ _ _ Hs) as (n & Hn). exists n.
    split; [assumption|].
    now apply (getopt_unknown argc argv opt_str g tok j a Hs Hlt n).
  - intros r g' H Hr.
    destruct (getopt_scan_cases _ _ _ _ _ _ _ _ _ Hs H)
      as (k & n & Hk & Hn & _ & _ & Hcase).
    destruct k.
    + left. now apply option_kind_unknown.
    + right; left. destruct Hcase as (E & _). apply int_of_char_inj.
      rewrite <- E, Hr. reflexivity.
    + destruct Hcase as (_ & [(_ & E & _) | [(_ & _ & E & _) | (-> & Hge & E & _)]]).
      * right; left. apply int_of_char_inj. rewrite <- E, Hr. reflexivity.
      * right; left. apply int_of_char_inj. rewrite <- E, Hr. reflexivity.
      * right; right. repeat split; auto. intros Hf. rewrite Hf in E.
        simpl in E. rewrite Hr in E. discriminate.
Qed.

Lemma unknown_option_returned_witness :
  exists n,
    char_at "-xh" (1 + 1) = Ok n /\
    getopt 2 [Some "prog"; Some "-xh"] ":h" initial
    = Ok (63,
          {| optarg := None;
             optind := if Ascii.eqb n NUL then 1 + 1 else 1;
             opterr := 1;
             optopt := 120;
             arg_idx := if Ascii.eqb n NUL then 0 else 1 + 1;
             stderr := [] |}).
Proof.
  apply (unknown_option_returned 2 [Some "prog"; Some "-xh"] ":h" initial "-xh" 1 "x").
  - apply scans_new; try reflexivity.
    repeat split; discriminate.
  - unfold no_overflow, INT_MAX; simpl; lia.
  - right. simpl. intros [H|[H|H]]; [discriminate | discriminate | exact H].
Defined.

(** ** Packed entries *)

Lemma char_at_app (cs : list ascii) (rest : string) (k : nat) :
  (k <= List.length cs)%nat ->
  char_at (string_of_list_ascii cs ++ rest) (Z.of_nat k)
  = Ok (nth k cs (first_char rest)).
Proof.
  revert k. induction cs as [|c cs IH]; intros k Hk; simpl in *.
  - replace k with O by lia. apply char_at_0.
  - destruct k as [|k]; [reflexivity|].
    rewrite Nat2Z.inj_succ. unfold Z.succ.
    rewrite char_at_succ by lia. apply IH. lia.
Qed.

Lemma char_at_packed (cs : list ascii) (rest : string) (k : nat) :
  (k <= List.length cs)%nat ->
  char_at (String "-" (string_of_list_ascii cs ++ rest)) (1 + Z.of_nat k)
  = Ok (nth k cs (first_char rest)).
Proof.
  intros Hk. rewrite Z.add_comm, char_at_succ by lia. now apply char_at_app.
Qed.

Lemma last_cons (l : list ascii) (x y : ascii) : last (x :: l) y = last l x.
Proof.
  revert x y. induction l as [|z l IH]; intros x y; [reflexivity|].
  change (last (x :: z :: l) y) with (last (z :: l) y).
  now rewrite (IH z y), (IH z x).
Qed.

Lemma getopt_calls_S n argc argv opt_str g r g1 rs g2 :
  getopt argc argv opt_str g = Ok (r, g1) ->
  getopt_calls n argc argv opt_str g1 = Ok (rs, g2) ->
  getopt_calls (S n) argc argv opt_str g = Ok (r :: rs, g2).
Proof. intros H1 H2. simpl. rewrite H1. simpl. now rewrite H2. Qed.

(** One call on a character that takes no argument. *)
Lemma getopt_plain argc argv opt_str g tok j a n :
  scans argc argv g tok j a -> no_overflow argc g j ->
  takes_no_argument opt_str a ->
  char_at tok (j + 1) = Ok n ->
  exists g',
    getopt argc argv opt_str g = Ok (returned_for opt_str a, g') /\
    optarg g' = None /\ optopt g' = int_of_char a /\
    optind g' = (if Ascii.eqb n NUL then optind g + 1 else optind g) /\
    arg_idx g' = (if Ascii.eqb n NUL then 0 else j + 1).
Proof.
  intros Hs (_ & Hi & Hj) (N & [Hk|Hk]) Hn; unfold returned_for; rewrite Hk.
  - rewrite (getopt_flag argc argv opt_str g tok j a Hs Hj n Hk Hn) by auto.
    eexists. split; [reflexivity|]. simpl. auto.
  - rewrite (getopt_unknown argc argv opt_str g tok j a Hs Hj n Hk Hn) by auto.
    eexists. split; [reflexivity|]. simpl. auto.
Qed.

(** A run of characters that take no argument is gone through from left to
    right, one character a call; [d] is the character behind the run. *)
Lemma getopt_calls_run argc argv opt_str tok d cs :
  argc <= INT_MAX -> Z.of_nat (String.length tok) < INT_MAX ->
  forall c j g,
    scans argc argv g tok j c -> optind g < INT_MAX ->
    (forall k, (k <= S (List.length cs))%nat ->
               char_at tok (j + Z.of_nat k) = Ok (nth k (c :: cs) d)) ->
    Forall (takes_no_argument opt_str) (c :: cs) ->
    exists g',
      getopt_calls (S (List.length cs)) argc argv opt_str g
      = Ok (map (returned_for opt_str) (c :: cs), g') /\
      optarg g' = None /\ optopt g' = int_of_char (last cs c) /\
      optind g' = (if Ascii.eqb d NUL then optind g + 1 else optind g) /\
      arg_idx g'
      = (if Ascii.eqb d NUL then 0 else j + Z.of_nat (S (List.length cs))).
Proof.
  intros Hargc Hlen.
  induction cs as [|c' cs IH]; intros c j g Hs Hc Hat Hall.
  - destruct (scans_char _ _ _ _ _ _ Hs) as (Ht & Ha & N & Hj).
    pose proof (char_at_not_NUL _ _ _ Ha N) as Hlt.
    assert (no_overflow argc g j) as Hint by (repeat split; lia).
    pose proof (Hat 1%nat (le_n _)) as Hn. simpl in Hn.
    inversion Hall as [|? ? Hp _]; subst.
    destruct (getopt_plain _ _ _ _ _ _ _ _ Hs Hint Hp Hn)
      as (g' & H & Harg & Hopt & Hind & Hidx).
    exists g'. split; [|auto].
    now apply getopt_calls_S with g'.
  - destruct (scans_char _ _ _ _ _ _ Hs) as (Ht & Ha & N & Hj).
    pose proof (char_at_not_NUL _ _ _ Ha N) as Hlt.
    assert (no_overflow argc g j) as Hint by (repeat split; lia).
    assert (char_at tok (j + 1) = Ok c') as Hn
      by (apply (Hat 1%nat); simpl; lia).
    inversion Hall as [|? ? Hp Hall']; subst.
    assert (c' <> NUL) as N' by (inversion Hall' as [|? ? [? _] _]; auto).
    destruct (getopt_plain _ _ _ _ _ _ _ _ Hs Hint Hp Hn)
      as (g1 & H1 & Harg1 & Hopt1 & Hind1 & Hidx1).
    rewrite (eqb_NUL_false _ N') in Hind1, Hidx1.
    assert (scans argc argv g1 tok (j + 1) c') as Hs1.
    { apply scans_resume; auto; try lia. now rewrite Hind1. }
    destruct (IH c' (j + 1) g1 Hs1) as (g' & H & Harg & Hopt & Hind & Hidx);
      [ lia | | assumption | ].
    { intros k Hk. replace (j + 1 + Z.of_nat k) with (j + Z.of_nat (S k)) by lia.
      apply (Hat (S k)). simpl in *. lia. }
    exists g'. split; [now apply getopt_calls_S with g1|].
    rewrite Hind1 in Hind. split; [assumption|].
    split; [now rewrite last_cons|]. split; [assumption|].
    rewrite Hidx. destruct (Ascii.eqb d NUL); [reflexivity|].
    simpl List.length. lia.
Qed.



(** ** After the last option *)

Lemma no_more_set_optarg argc argv g p :
  no_more argc argv g -> no_more argc argv (set_optarg p g).
Proof.
  intros [H0 H | H0 Ht | tok H0 Ht H | tok H0 Ht H].
  - now apply no_more_end.
  - now apply no_more_null.
  - now apply no_more_operand with tok.
  - now apply no_more_dash with tok.
Qed.

Lemma getopt_calls_no_more argc argv opt_str g n :
  no_more argc argv g ->
  getopt_calls n argc argv opt_str (set_optarg None g)
  = Ok (repeat (-1) n, set_optarg None g).
Proof.
  intros H. induction n as [|n IH]; [reflexivity|].
  apply getopt_calls_S with (set_optarg None g); [|exact IH].
  now apply (getopt_no_more argc argv opt_str (set_optarg None g)),
    no_more_set_optarg.
Qed.

(** Where the offset was when a call scans. *)
Lemma scans_arg_idx argc argv g tok j a :
  scans argc argv g tok j a -> (arg_idx g = 0 /\ j = 1) \/ arg_idx g = j.
Proof. intros [H0 _ _ _ -> _ | <- _ _ _ _]; auto. Qed.

(** C6 as worded does not hold: for the vector ["prog"; "--"; "-x"] the
    first call steps over "--" and returns -1, and the second call scans
    "-x": it returns 'x'. *)
Lemma end_is_final_fails :
  ~ end_is_final 3 [Some "prog"; Some "--"; Some "-x"] "x" initial.
Proof.
  intros H. specialize (H _ eq_refl). discriminate H.
Qed.

(** C6, amended: once a call has returned -1 without moving the cursor
    (that is, for any reason but "--"), no option entry is under the index,
    and every later call returns -1 and leaves the state as it is.  After
    "--" the index has moved on and the next call looks at the entry behind
    it. *)
Theorem no_more_options_is_final argc argv opt_str g g1 :
  cursor_ok argv g ->
  getopt argc argv opt_str g = Ok (-1, g1) ->
  optind g1 = optind g -> arg_idx g1 = arg_idx g ->
  no_more argc argv g /\
  forall n, getopt_calls n argc argv opt_str g1 = Ok (repeat (-1) n, g1).
Proof.
  intros Hok H Hi Hj.
  pose proof (getopt_call _ _ _ _ _ _ Hok H) as C.
  inversion C as [Hn | He | tok j a n Hs Hk Hn | tok j a n Hs Hk Hn
                 | tok j a n Hs Hk Hn N | tok j a e Hs Hk Hn Hlt He
                 | tok j a Hs Hk Hn Hge];
    subst; simpl in Hi, Hj; try lia.
  - split; [assumption|]. intros n. now apply getopt_calls_no_more.
  - exfalso. destruct (scans_arg_idx _ _ _ _ _ _ Hs) as [[? ?]|?];
      destruct (Ascii.eqb n NUL); lia.
Qed.

Lemma no_more_options_is_final_witness :
  no_more 2 [Some "prog"; Some "file"] initial /\
  forall n,
    getopt_calls n 2 [Some "prog"; Some "file"] "x" initial
    = Ok (repeat (-1) n, initial).
Proof.
  apply (no_more_options_is_final 2 [Some "prog"; Some "file"] "x" initial initial).
  - left. reflexivity.
  - reflexivity.
  - reflexivity.
  - reflexivity.
Defined.

(** ** The cursor *)

(** The cursor after a call that returns. *)
Lemma getopt_cursor_ok argc argv opt_str g r g' :
  cursor_ok argv g ->
  getopt argc argv opt_str g = Ok (r, g') ->
  cursor_ok argv g'.
Proof.
  intros Hok H. pose proof (getopt_call _ _ _ _ _ _ Hok H) as C.
  assert (forall tok j a n,
            scans argc argv g tok j a -> char_at tok (j + 1) = Ok n ->
            optind g' = (if Ascii.eqb n NUL then optind g + 1 else optind g) ->
            arg_idx g' = (if Ascii.eqb n NUL then 0 else j + 1) ->
            cursor_ok argv g') as Hmore.
  { intros tok j a n Hs Hn Hi Hj.
    destruct (Ascii.eqb_spec n NUL) as [E|E]; [now left|].
    right. exists tok, n. rewrite Hi, Hj.
    destruct (scans_char _ _ _ _ _ _ Hs) as (Ht & _). auto. }
  inversion C as [Hn | He | tok j a n Hs Hk Hn | tok j a n Hs Hk Hn
                 | tok j a n Hs Hk Hn N | tok j a e Hs Hk Hn Hlt He
                 | tok j a Hs Hk Hn Hge];
    subst; try (now left); try (now apply (Hmore tok j a n)).
  - left. simpl. now destruct Hn.
  - left. simpl. now destruct He.
Qed.

(** C7: every call keeps the cursor sound.  A call that scans a character
    returns, when the increments fit an [int] and the entry behind can be
    read, and after it the offset is 0 exactly when the entry is used up
    (the scanned character was its last one, or it takes an argument), and
    then the index has moved on; otherwise the index is the same and the
    offset is on the next character of the entry, which is not its
    terminator.  A call that scans nothing returns -1 with the offset at 0,
    the index unchanged or, behind "--", one further.  No call returns in
    another way. *)
Theorem cursor_invariant argc argv opt_str g :
  cursor_ok argv g ->
  (forall tok j a,
     scans argc argv g tok j a -> no_overflow argc g j ->
     (optind g + 1 < argc -> exists e, argv_at argv (optind g + 1) = Ok e) ->
     exists r g' n,
       getopt argc argv opt_str g = Ok (r, g') /\
       char_at tok (j + 1) = Ok n /\
       cursor_ok argv g' /\
       (arg_idx g' = 0 <->
        n = NUL \/ option_kind opt_str a = Ok WithArgument) /\
       (arg_idx g' = 0 -> optind g < optind g') /\
       (arg_idx g' <> 0 ->
        optind g' = optind g /\ arg_idx g' = j + 1 /\ n <> NUL)) /\
  (no_more argc argv g ->
   exists g',
     getopt argc argv opt_str g = Ok (-1, g') /\
     cursor_ok argv g' /\ arg_idx g' = 0 /\ optind g' = optind g) /\
  (end_marker argc argv g -> optind g < INT_MAX ->
   exists g',
     getopt argc argv opt_str g = Ok (-1, g') /\
     cursor_ok argv g' /\ arg_idx g' = 0 /\ optind g' = optind g + 1) /\
  (forall r g',
     getopt argc argv opt_str g = Ok (r, g') ->
     cursor_ok argv g' /\
     (no_more argc argv g \/ end_marker argc argv g -> arg_idx g' = 0) /\
     (forall tok j a,
        scans argc argv g tok j a ->
        exists n,
          char_at tok (j + 1) = Ok n /\
          (arg_idx g' = 0 <->
           n = NUL \/ option_kind opt_str a = Ok WithArgument) /\
          (arg_idx g' = 0 -> optind g < optind g') /\
          (arg_idx g' <> 0 ->
           optind g' = optind g /\ arg_idx g' = j + 1 /\ n <> NUL))).
Proof.
  intros Hok.
  assert (forall r g' tok j a,
            getopt argc argv opt_str g = Ok (r, g') ->
            scans argc argv g tok j a ->
            exists n,
              char_at tok (j + 1) = Ok n /\
              (arg_idx g' = 0 <->
               n = NUL \/ option_kind opt_str a = Ok WithArgument) /\
              (arg_idx g' = 0 -> optind g < optind g') /\
              (arg_idx g' <> 0 ->
               optind g' = optind g /\ arg_idx g' = j + 1 /\ n <> NUL))
    as Hscan.
  { intros r g' tok j a H Hs.
    destruct (scans_char _ _ _ _ _ _ Hs) as (_ & _ & _ & Hj).
    destruct (getopt_scan_cases _ _ _ _ _ _ _ _ _ Hs H)
      as (k & n & Hk & Hn & _ & _ & Hcase).
    exists n. split; [assumption|]. rewrite Hk.
    destruct k.
    + destruct Hcase as (_ & _ & Hi & Hidx). rewrite Hi, Hidx.
      destruct (Ascii.eqb_spec n NUL) as [E|E]; repeat split;
        try tauto; try lia; try discriminate.
      intros [?|?]; [contradiction|discriminate].
    + destruct Hcase as (_ & _ & Hi & Hidx). rewrite Hi, Hidx.
      destruct (Ascii.eqb_spec n NUL) as [E|E]; repeat split;
        try tauto; try lia; try discriminate.
      intros [?|?]; [contradiction|discriminate].
    + destruct Hcase as (Hidx & Hi). rewrite Hidx.
      repeat split; try tauto; lia. }
  split; [|split; [|split]].
  - intros tok j a Hs Hno Hnext.
    destruct (getopt_scans_returns argc argv opt_str _ _ _ _ Hs Hno Hnext)
      as (r & g' & H).
    destruct (Hscan r g' tok j a H Hs) as (n & Hn & Hrest).
    exists r, g', n. split; [exact H|]. split; [exact Hn|].
    split; [now apply getopt_cursor_ok with argc opt_str g r|]. exact Hrest.
  - intros Hn. exists (set_optarg None g).
    split; [now apply getopt_no_more|].
    assert (arg_idx g = 0) as H0 by now destruct Hn.
    split; [now left|]. split; [exact H0|reflexivity].
  - intros He Hi. exists (set_optind (optind g + 1) (set_optarg None g)).
    split; [now apply getopt_end_marker|].
    assert (arg_idx g = 0) as H0 by now destruct He.
    split; [now left|]. split; [exact H0|reflexivity].
  - intros r g' H.
    split; [now apply getopt_cursor_ok with argc opt_str g r|].
    split.
    + intros Hend. pose proof (getopt_call _ _ _ _ _ _ Hok H) as C.
      inversion C as [Hn | He | tok j a n Hs Hk Hn | tok j a n Hs Hk Hn
                     | tok j a n Hs Hk Hn N | tok j a e Hs Hk Hn Hlt He
                     | tok j a Hs Hk Hn Hge];
        subst; simpl;
        try (exfalso; destruct Hend as [Hend|Hend];
             [ now apply (scans_not_no_more _ _ _ _ _ _ Hs)
             | now apply (scans_not_end_marker _ _ _ _ _ _ Hs) ]).
      * now destruct Hn.
      * now destruct He.
    + intros tok j a Hs. now apply Hscan with r.
Qed.

Lemma cursor_invariant_witness :
  (exists r g',
     getopt 3 [Some "prog"; Some "-ab"; Some "file"] "ab"
       {| optarg := None; optind := 1; opterr := 1; optopt := 97;
          arg_idx := 2; stderr := [] |}
     = Ok (r, g') /\
     cursor_ok [Some "prog"; Some "-ab"; Some "file"] g' /\
     arg_idx g' = 0 /\ 1 < optind g') /\
  (exists r g',
     getopt 3 [Some "prog"; Some "-ab"; Some "file"] "ab" initial
     = Ok (r, g') /\
     cursor_ok [Some "prog"; Some "-ab"; Some "file"] g' /\
     arg_idx g' = 2 /\ optind g' = 1).
Proof.
  split.
  - destruct (cursor_invariant 3 [Some "prog"; Some "-ab"; Some "file"] "ab"
                {| optarg := None; optind := 1; opterr := 1; optopt := 97;
                   arg_idx := 2; stderr := [] |}) as (A & _).
    + right. exists "-ab", "b"%char. repeat split; discriminate.
    + destruct (A "-ab" 2 "b"%char)
        as (r & g' & n & H & Hn & Hc & Hiff & Hadv & _).
      * apply scans_resume; try reflexivity; discriminate.
      * unfold no_overflow, INT_MAX; simpl; lia.
      * intros _. exists (Some "file"). reflexivity.
      * assert (arg_idx g' = 0) as H0
          by (apply Hiff; left; vm_compute in Hn; now injection Hn as <-).
        exists r, g'. auto.
  - destruct (cursor_invariant 3 [Some "prog"; Some "-ab"; Some "file"] "ab"
                initial) as (A & _).
    + left. reflexivity.
    + destruct (A "-ab" 1 "a"%char)
        as (r & g' & n & H & Hn & Hc & Hiff & _ & Hin).
      * apply scans_new; try reflexivity.
        repeat split; discriminate.
      * unfold no_overflow, INT_MAX; simpl; lia.
      * intros _. exists (Some "file"). reflexivity.
      * assert (arg_idx g' <> 0) as H0.
        { intros E. apply Hiff in E. vm_compute in Hn.
          injection Hn as <-.
          destruct E as [E|E]; discriminate. }
        destruct (Hin H0) as (Hi & Hj & _).
        exists r, g'. auto.
Defined.

(** ** The result variables *)

(** C9: a call that scans a character returns, when the increments fit an
    [int] and the entry behind can be read, and leaves the character in
    [optopt], whatever it returns: an option without argument is returned
    itself.  A call that scans nothing returns -1 and leaves [optopt] as it
    was.  Every call that returns is one or the other. *)
Theorem optopt_update argc argv opt_str g :
  cursor_ok argv g ->
  (forall tok j a,
     scans argc argv g tok j a -> no_overflow argc g j ->
     (optind g + 1 < argc -> exists e, argv_at argv (optind g + 1) = Ok e) ->
     exists r g',
       getopt argc argv opt_str g = Ok (r, g') /\
       optopt g' = int_of_char a /\
       (option_kind opt_str a = Ok Flag -> r = int_of_char a)) /\
  (no_more argc argv g ->
   exists g',
     getopt argc argv opt_str g = Ok (-1, g') /\ optopt g' = optopt g) /\
  (end_marker argc argv g -> optind g < INT_MAX ->
   exists g',
     getopt argc argv opt_str g = Ok (-1, g') /\ optopt g' = optopt g) /\
  (forall r g',
     getopt argc argv opt_str g = Ok (r, g') ->
     (forall tok j a,
        scans argc argv g tok j a -> optopt g' = int_of_char a) /\
     (no_more argc argv g \/ end_marker argc argv g ->
      r = -1 /\ optopt g' = optopt g) /\
     ((exists tok j a, scans argc argv g tok j a) \/
      no_more argc argv g \/ end_marker argc argv g)).
Proof.
  intros Hok. split; [|split; [|split]].
  - intros tok j a Hs Hno Hnext.
    destruct (getopt_scans_returns argc argv opt_str _ _ _ _ Hs Hno Hnext)
      as (r & g' & H).
    destruct (getopt_scan_cases _ _ _ _ _ _ _ _ _ Hs H)
      as (k & n & Hk & _ & Hopt & _ & Hcase).
    exists r, g'. split; [exact H|]. split; [exact Hopt|].
    intros Hf. rewrite Hf in Hk. injection Hk as <-. now destruct Hcase.
  - intros Hn. exists (set_optarg None g).
    split; [now apply getopt_no_more | reflexivity].
  - intros He Hi. exists (set_optind (optind g + 1) (set_optarg None g)).
    split; [now apply getopt_end_marker | reflexivity].
  - intros r g' H. split; [|split].
    + intros tok j a Hs.
      destruct (getopt_scan_cases _ _ _ _ _ _ _ _ _ Hs H)
        as (k & n & _ & _ & Hopt & _). exact Hopt.
    + intros Hend. pose proof (getopt_call _ _ _ _ _ _ Hok H) as C.
      inversion C as [Hn | He | tok j a n Hs Hk Hn | tok j a n Hs Hk Hn
                     | tok j a n Hs Hk Hn N | tok j a e Hs Hk Hn Hlt He
                     | tok j a Hs Hk Hn Hge];
        subst; simpl; auto;
        exfalso; destruct Hend as [Hend|Hend];
        solve [ now apply (scans_not_no_more _ _ _ _ _ _ Hs)
              | now apply (scans_not_end_marker _ _ _ _ _ _ Hs) ].
    + destruct (getopt_looks_at _ _ _ _ _ _ Hok H) as [Hn | [He | Hs]]; auto.
Qed.

Lemma optopt_update_witness :
  (exists r g',
     getopt 2 [Some "prog"; Some "-a"] "a" initial = Ok (r, g') /\
     optopt g' = 97 /\ r = 97) /\
  (exists g',
     getopt 3 [Some "prog"; Some "-a"; Some "file"] "a"
       {| optarg := None; optind := 2; opterr := 1; optopt := 97;
          arg_idx := 0; stderr := [] |}
     = Ok (-1, g') /\
     optopt g' = 97).
Proof.
  split.
  - destruct (optopt_update 2 [Some "prog"; Some "-a"] "a" initial)
      as (A & _).
    + left. reflexivity.
    + destruct (A "-a" 1 "a"%char) as (r & g' & H & Hopt & Hr).
      * apply scans_new; try reflexivity.
        repeat split; discriminate.
      * unfold no_overflow, INT_MAX; simpl; lia.
      * simpl. lia.
      * exists r, g'. split; [exact H|]. split; [exact Hopt|].
        apply Hr. reflexivity.
  - destruct (optopt_update 3 [Some "prog"; Some "-a"; Some "file"] "a"
                {| optarg := None; optind := 2; opterr := 1; optopt := 97;
                   arg_idx := 0; stderr := [] |}) as (_ & B & _).
    + left. reflexivity.
    + apply B. apply no_more_operand with "file"; try reflexivity.
      discriminate.
Defined.

(** [optarg] is cleared first: what it held before the call plays no role. *)
Lemma getopt_set_optarg argc argv opt_str g p :
  getopt argc argv opt_str (set_optarg p g) = getopt argc argv opt_str g.
Proof. reflexivity. Qed.

(** C10: [optarg] is cleared at the start of every call, so the call does
    the same whatever [optarg] held.  After a call that scans nothing, that
    scans a character which takes no argument, or that misses an argument,
    [optarg] is null.  It is not null only after a call that has returned an
    option declared with an argument, and then it points into [argv]:
    behind that option in its entry, or at the start of the next entry. *)
Theorem optarg_reset argc argv opt_str g r g' :
  cursor_ok argv g ->
  getopt argc argv opt_str g = Ok (r, g') ->
  (forall p, getopt argc argv opt_str (set_optarg p g) = Ok (r, g')) /\
  (no_more argc argv g \/ end_marker argc argv g -> optarg g' = None) /\
  (forall tok j a,
     scans argc argv g tok j a ->
     option_kind opt_str a <> Ok WithArgument -> optarg g' = None) /\
  (forall tok j a,
     scans argc argv g tok j a ->
     char_at tok (j + 1) = Ok NUL -> argc <= optind g + 1 ->
     optarg g' = None) /\
  (forall p,
     optarg g' = Some p ->
     exists tok j a,
       scans argc argv g tok j a /\
       option_kind opt_str a = Ok WithArgument /\ r = int_of_char a /\
       (p = {| p_elem := optind g; p_off := j + 1 |} \/
        p = {| p_elem := optind g + 1; p_off := 0 |}) /\
       exists entry,
         argv_at argv (p_elem p) = Ok (Some entry) /\
         0 <= p_off p <= Z.of_nat (String.length entry)).
Proof.
  intros Hok H. split; [|split; [|split; [|split]]].
  - intros p. now rewrite getopt_set_optarg.
  - intros Hend. pose proof (getopt_call _ _ _ _ _ _ Hok H) as C.
    inversion C as [Hn | He | tok j a n Hs Hk Hn | tok j a n Hs Hk Hn
                   | tok j a n Hs Hk Hn N | tok j a e Hs Hk Hn Hlt He
                   | tok j a Hs Hk Hn Hge];
      subst; simpl; auto;
      exfalso; destruct Hend as [Hend|Hend];
      solve [ now apply (scans_not_no_more _ _ _ _ _ _ Hs)
            | now apply (scans_not_end_marker _ _ _ _ _ _ Hs) ].
  - intros tok j a Hs Hk.
    destruct (getopt_scan_cases _ _ _ _ _ _ _ _ _ Hs H)
      as (k & n & Hk' & _ & _ & _ & Hcase).
    destruct k; [now destruct Hcase as (_ & ? & _) ..|].
    contradiction.
  - intros tok j a Hs Hn Hge.
    destruct (getopt_scan_cases _ _ _ _ _ _ _ _ _ Hs H)
      as (k & n & Hk' & Hn' & _ & _ & Hcase).
    rewrite Hn in Hn'. injection Hn' as <-.
    destruct k; [now destruct Hcase as (_ & ? & _) ..|].
    destruct Hcase as (_ & [(N & _) | [(_ & Hlt & _) | (_ & _ & _ & E & _)]]);
      [now destruct N | lia | exact E].
  - intros p Hp. pose proof (getopt_call _ _ _ _ _ _ Hok H) as C.
    inversion C as [Hn | He | tok j a n Hs Hk Hn | tok j a n Hs Hk Hn
                   | tok j a n Hs Hk Hn N | tok j a e Hs Hk Hn Hlt He
                   | tok j a Hs Hk Hn Hge];
      subst; simpl in Hp; try discriminate.
    + injection Hp as <-. exists tok, j, a.
      destruct (scans_char _ _ _ _ _ _ Hs) as (Ht & _ & _ & Hj).
      repeat split; auto. exists tok. simpl. split; [assumption|].
      apply char_at_bounds in Hn. lia.
    + destruct e as [entry|]; [|discriminate]. injection Hp as <-.
      exists tok, j, a. repeat split; auto. exists entry. simpl.
      split; [assumption|lia].
Qed.

Lemma optarg_reset_witness :
  getopt 3 [Some "prog"; Some "-f"; Some "value"] "f:"
    (set_optarg (Some {| p_elem := 1; p_off := 2 |}) initial)
  = Ok (102, {| optarg := Some {| p_elem := 2; p_off := 0 |}; optind := 3;
                opterr := 1; optopt := 102; arg_idx := 0; stderr := [] |}).
Proof.
  apply (optarg_reset 3 [Some "prog"; Some "-f"; Some "value"] "f:" initial).
  - left. reflexivity.
  - reflexivity.
Defined.

(** ** Resuming inside an entry *)

Lemma argv_at_total (argv : arg_vector) (i : Z) :
  0 <= i < Z.of_nat (List.length argv) -> exists e, argv_at argv i = Ok e.
Proof.
  intros Hi. unfold argv_at. destruct (Z.ltb_spec i 0); [lia|].
  destruct (nth_error argv (Z.to_nat i)) as [e|] eqn:E; [eauto|].
  apply nth_error_None in E. lia.
Qed.

Lemma argv_at_In (argv : arg_vector) (i : Z) (e : option string) :
  argv_at argv i = Ok e -> In e argv.
Proof.
  unfold argv_at. destruct (i <? 0); [discriminate|].
  destruct (nth_error argv (Z.to_nat i)) as [e'|] eqn:E; [|discriminate].
  injection 1 as <-. now apply nth_error_In with (Z.to_nat i).
Qed.

Lemma vector_ok_length argc argv i tok :
  vector_ok argc argv -> argv_at argv i = Ok (Some tok) ->
  Z.of_nat (String.length tok) < INT_MAX.
Proof.
  intros (_ & _ & Hall) Ht. apply argv_at_In in Ht.
  rewrite Forall_forall in Hall. exact (Hall _ Ht).
Qed.

(** The entry a call scans is below [argc] and begins with '-', when the
    call starts on an entry or resumes where [inside_entry] says. *)
Lemma scans_inside argc argv g tok j a :
  scans argc argv g tok j a ->
  arg_idx g = 0 \/ inside_entry argc argv g ->
  optind g < argc /\ first_char tok = "-"%char.
Proof.
  intros [H0 Hc Ht (Hd & _) _ _ | <- Hj Ht _ _] Hin; [auto|].
  destruct Hin as [|(_ & Hc & tok' & _ & Ht' & Hd & _)]; [contradiction|].
  rewrite Ht in Ht'. injection Ht' as <-. auto.
Qed.

(** In one scan the index never goes below 1, and the offset is 0 or on a
    character of an entry that holds options. *)
Lemma reachable_inv argc argv g :
  reachable argc argv g ->
  1 <= optind g /\ (arg_idx g = 0 \/ inside_entry argc argv g).
Proof.
  induction 1 as [g Hi Hj | g opt_str r g' _ (Hi & Hin) H].
  - split; [lia | now left].
  - assert (cursor_ok argv g) as Hok.
    { destruct Hin as [|(_ & _ & tok & a & Ht & _ & Ha & N)];
        [now left | right; eauto]. }
    assert (forall tok j a n,
              scans argc argv g tok j a -> char_at tok (j + 1) = Ok n ->
              optind g' = (if Ascii.eqb n NUL then optind g + 1 else optind g) ->
              arg_idx g' = (if Ascii.eqb n NUL then 0 else j + 1) ->
              1 <= optind g' /\ (arg_idx g' = 0 \/ inside_entry argc argv g'))
      as Hmore.
    { intros tok j a n Hs Hn Hi' Hj'.
      destruct (scans_inside _ _ _ _ _ _ Hs Hin) as (Hc & Hd).
      destruct (scans_char _ _ _ _ _ _ Hs) as (Ht & _ & _ & Hj).
      destruct (Ascii.eqb_spec n NUL) as [E|E]; [split; [lia | now left]|].
      split; [lia|]. right. unfold inside_entry. rewrite Hi', Hj'.
      repeat split; try lia. exists tok, n. auto. }
    pose proof (getopt_call _ _ _ _ _ _ Hok H) as C.
    inversion C as [Hn | He | tok j a n Hs Hk Hn | tok j a n Hs Hk Hn
                   | tok j a n Hs Hk Hn N | tok j a e Hs Hk Hn Hlt He
                   | tok j a Hs Hk Hn Hge];
      subst; try (now apply (Hmore tok j a n)); simpl;
      try (split; [lia | now left]).
    + split; [lia|]. left. now destruct Hn.
    + split; [lia|]. left. now destruct He.
Qed.

(** A call that scans a character of a well-formed vector returns. *)
Lemma getopt_scans_total argc argv opt_str g tok j a :
  vector_ok argc argv -> 0 <= optind g < argc ->
  scans argc argv g tok j a ->
  exists r g', getopt argc argv opt_str g = Ok (r, g').
Proof.
  intros Hv Hc Hs. destruct (scans_char _ _ _ _ _ _ Hs) as (Ht & Ha & N & Hj0).
  pose proof (vector_ok_length _ _ _ _ Hv Ht) as Hlen.
  pose proof (char_at_not_NUL _ _ _ Ha N) as Hlt.
  destruct Hv as (Hargc & Hargv & _).
  assert (j < INT_MAX) as Hj by lia.
  assert (optind g < INT_MAX) as Hi by lia.
  destruct (scans_next _ _ _ _ _ _ Hs) as (n & Hn).
  destruct (option_kind_total opt_str a N) as ([| |] & Hk).
  - rewrite (getopt_unknown _ _ _ _ _ _ _ Hs Hj n Hk Hn) by auto. eauto.
  - rewrite (getopt_flag _ _ _ _ _ _ _ Hs Hj n Hk Hn) by auto. eauto.
  - destruct (ascii_dec n NUL) as [->|Nn].
    + destruct (Z.lt_ge_cases (optind g + 1) argc) as [Hnext|Hlast].
      * destruct (argv_at_total argv (optind g + 1)) as (e & He); [lia|].
        rewrite (getopt_next _ _ _ _ _ _ _ Hs Hj e Hk Hn Hnext He) by lia.
        eauto.
      * rewrite (getopt_missing _ _ _ _ _ _ _ Hs Hj Hk Hn) by auto. eauto.
    + rewrite (getopt_glued _ _ _ _ _ _ _ Hs Hj n Hk Hn Nn) by auto. eauto.
Qed.

(** A call on a well-formed vector returns, from the start of an entry and
    from where [inside_entry] says. *)
Lemma getopt_total argc argv opt_str g :
  vector_ok argc argv -> 0 <= optind g ->
  arg_idx g = 0 \/ inside_entry argc argv g ->
  exists r g', getopt argc argv opt_str g = Ok (r, g').
Proof.
  intros Hv Hi [H0 | (Hj & Hc & tok & a & Ht & _ & Ha & N)].
  - destruct (Z.le_gt_cases argc (optind g)) as [|Hc].
    { rewrite getopt_no_more by now apply no_more_end. eauto. }
    destruct (argv_at_total argv (optind g)) as ([tok|] & Ht);
      [destruct Hv as (_ & ? & _); lia | |].
    + destruct (ascii_dec (first_char tok) "-") as [Hd|Hd].
      * destruct (cstr_dec tok "-") as [E1|E1].
        { rewrite getopt_no_more by now apply no_more_dash with tok. eauto. }
        destruct (cstr_dec tok "--") as [E2|E2].
        { rewrite getopt_end_marker;
            [eauto | repeat split; eauto | destruct Hv; lia]. }
        assert (option_entry tok) as He by (repeat split; assumption).
        destruct (option_entry_inv _ He) as (b & rest & E & _).
        apply getopt_scans_total with tok 1 b; auto.
        apply scans_new; auto. now rewrite E.
      * rewrite getopt_no_more by now apply no_more_operand with tok. eauto.
    + rewrite getopt_no_more by now apply no_more_null. eauto.
  - apply getopt_scans_total with tok (arg_idx g) a; auto.
    apply scans_resume; auto. lia.
Qed.

(** C8: in one scan, a call that resumes inside an entry finds the index
    below [argc], the entry not null and beginning with '-', and the offset
    on a character of it that is not its terminator; so on a well-formed
    vector no call of the scan reads outside [argv], its entries or the
    specification string: every call returns. *)
Theorem resume_is_safe argc argv g :
  vector_ok argc argv -> reachable argc argv g ->
  (arg_idx g <> 0 -> inside_entry argc argv g) /\
  (forall opt_str, exists r g', getopt argc argv opt_str g = Ok (r, g')).
Proof.
  intros Hv Hr. destruct (reachable_inv _ _ _ Hr) as (Hi & Hin). split.
  - intros Hj. destruct Hin; [contradiction|assumption].
  - intros opt_str. apply getopt_total; auto. lia.
Qed.

Lemma resume_is_safe_witness :
  (arg_idx {| optarg := None; optind := 1; opterr := 1; optopt := 97;
              arg_idx := 2; stderr := [] |} <> 0 ->
   inside_entry 2 [Some "prog"; Some "-ab"]
     {| optarg := None; optind := 1; opterr := 1; optopt := 97;
        arg_idx := 2; stderr := [] |}) /\
  (forall opt_str, exists r g',
     getopt 2 [Some "prog"; Some "-ab"] opt_str
       {| optarg := None; optind := 1; opterr := 1; optopt := 97;
          arg_idx := 2; stderr := [] |} = Ok (r, g')).
Proof.
  apply (resume_is_safe 2 [Some "prog"; Some "-ab"]).
  - split; [unfold INT_MAX; lia|]. split; [simpl; lia|].
    repeat constructor; unfold INT_MAX; simpl; lia.
  - apply reach_call with initial "ab" 97; [|reflexivity].
    apply reach_start; reflexivity.
Defined.

(** * Further properties of getopt *)

(** ** What a call leaves alone *)

Lemma bind_Ok {A B : Type} (m : res A) (k : A -> res B) (b : B) :
  bind m k = Ok b -> exists a, m = Ok a /\ k a = Ok b.
Proof. destruct m as [a|f]; simpl; [eauto | discriminate]. Qed.

Ltac bind_inv H :=
  let x := fresh "x" in
  let E := fresh "E" in
  apply bind_Ok in H; destruct H as (x & E & H).

Lemma next_entry_frame g g' :
  next_entry g = Ok g' ->
  opterr g' = opterr g /\ optopt g' = optopt g /\ stderr g' = stderr g /\
  optarg g' = optarg g.
Proof. unfold next_entry. intros H. bind_inv H. now injection H as <-. Qed.

Lemma next_char_frame argv g g' :
  next_char argv g = Ok g' ->
  opterr g' = opterr g /\ optopt g' = optopt g /\ stderr g' = stderr g /\
  optarg g' = optarg g.
Proof.
  unfold next_char. intros H. bind_inv H. bind_inv H.
  destruct (Ascii.eqb x0 NUL).
  - now apply next_entry_frame in H.
  - now injection H as <-.
Qed.

(** What [getopt_p_print_err] adds to [stderr]: nothing, or one line. *)
Lemma printed_cases opt_str msg c g :
  printed opt_str msg c g = stderr g \/
  (opterr g <> 0 /\ first_char opt_str <> ":"%char /\
   printed opt_str msg c g
   = stderr g ++ [{| d_msg := msg; d_opt := char_of_int c |}]).
Proof.
  unfold printed. destruct (Z.eqb_spec (opterr g) 0); simpl; [now left|].
  destruct (Ascii.eqb_spec (first_char opt_str) ":"); simpl; [now left|].
  right. auto.
Qed.

Lemma printed_quiet opt_str msg c g :
  opterr g = 0 \/ first_char opt_str = ":"%char ->
  printed opt_str msg c g = stderr g.
Proof.
  intros Hq. destruct (printed_cases opt_str msg c g) as [|(H1 & H2 & _)];
    [assumption | tauto].
Qed.

Lemma option_argument_frame argc argv opt_str c g r g' :
  optopt g = c ->
  option_argument argc argv opt_str c g = Ok (r, g') ->
  opterr g' = opterr g /\ optopt g' = c /\ wrote opt_str g r g'.
Proof.
  intros Hc H. unfold option_argument in H. bind_inv H. bind_inv H.
  destruct (Ascii.eqb x0 NUL); simpl in H.
  - bind_inv H. destruct (x1 <? argc).
    + bind_inv H. bind_inv H. injection H as <- <-.
      apply next_entry_frame in E3. simpl in E3.
      destruct E3 as (-> & -> & E3 & _). repeat split; auto. now left.
    + rewrite print_err_ok in H. simpl in H. bind_inv H.
      apply next_entry_frame in E2. simpl in E2.
      destruct E2 as (Ee & Eo & Es & _).
      rewrite char_at_0 in H. simpl in H.
      assert (g' = x2) as -> by (destruct (Ascii.eqb _ _); now injection H).
      repeat split; auto; [congruence|].
      destruct (printed_cases opt_str "argument required for option" c g)
        as [Ep | (H1 & H2 & Ep)]; [left; congruence|].
      right. rewrite (proj2 (Ascii.eqb_neq _ _) H2) in H.
      injection H as <-. repeat split; auto.
      exists "argument required for option". split; [now right|].
      rewrite Es, Ep, Eo, Hc. reflexivity.
  - bind_inv H. injection H as <- <-.
    apply next_entry_frame in E1. simpl in E1.
    destruct E1 as (-> & -> & E1 & _). repeat split; auto. now left.
Qed.

Lemma scan_option_frame argc argv opt_str g r g' :
  scan_option argc argv opt_str g = Ok (r, g') ->
  opterr g' = opterr g /\ wrote opt_str g r g'.
Proof.
  intros H. unfold scan_option in H. bind_inv H.
  assert (forall r0,
            (g1 <- getopt_p_print_err opt_str "invalid option" (int_of_char x)
                     (set_optopt (int_of_char x) g) ;;
             g2 <- next_char argv g1 ;; Ok (getopt_p_option_unknown, g2))
            = Ok (r0, g') ->
            r0 = getopt_p_option_unknown /\
            opterr g' = opterr g /\ wrote opt_str g r0 g') as Hinv.
  { intros r0 H0. rewrite print_err_ok in H0. simpl in H0. bind_inv H0.
    injection H0 as <- <-. apply next_char_frame in E0. simpl in E0.
    destruct E0 as (Ee & Eo & Es & _). repeat split; auto.
    change (printed opt_str "invalid option" (int_of_char x)
              (set_optopt (int_of_char x) g))
      with (printed opt_str "invalid option" (int_of_char x) g) in Es.
    destruct (printed_cases opt_str "invalid option" (int_of_char x) g)
      as [Ep | (H1 & H2 & Ep)]; [left; congruence|].
    right. repeat split; auto. exists "invalid option". split; [now left|].
    rewrite Es, Ep, Eo. reflexivity. }
  destruct (strchr opt_str (int_of_char x)) as [k|];
    [|now destruct (Hinv _ H) as (_ & ? & ?)].
  destruct (int_of_char x =? 58);
    [now destruct (Hinv _ H) as (_ & ? & ?)|].
  bind_inv H. destruct (Ascii.eqb x0 ":").
  - apply option_argument_frame in H; [|reflexivity].
    destruct H as (He & _ & Hw). split; [exact He|].
    destruct Hw as [Hw | (H1 & H2 & H3 & msg & Hm & Hw)]; [now left|].
    right. repeat split; auto. exists msg. auto.
  - bind_inv H. injection H as <- <-. apply next_char_frame in E1.
    simpl in E1. destruct E1 as (Ee & _ & Es & _). split; [exact Ee|].
    left. exact Es.
Qed.

Lemma new_entry_frame argc argv g f :
  new_entry argc argv g = Ok f ->
  match f with
  | Return r g' =>
      r = -1 /\ opterr g' = opterr g /\ stderr g' = stderr g /\
      optopt g' = optopt g /\ optarg g' = optarg g
  | Continue g' =>
      opterr g' = opterr g /\ stderr g' = stderr g /\ optopt g' = optopt g
  end.
Proof.
  unfold new_entry. intros H.
  destruct (optind g >=? argc); [injection H as <-; auto|].
  bind_inv H. destruct x as [tok|]; [|injection H as <-; auto].
  bind_inv H. destruct (negb (Ascii.eqb x "-")); [injection H as <-; auto|].
  destruct (strcmp tok "-" =? 0); [injection H as <-; auto|].
  destruct (strcmp tok "--" =? 0); bind_inv H; injection H as <-; simpl; auto.
Qed.

Lemma getopt_frame argc argv opt_str g r g' :
  getopt argc argv opt_str g = Ok (r, g') ->
  opterr g' = opterr g /\ wrote opt_str g r g'.
Proof.
  intros H. unfold getopt in H. bind_inv H.
  assert (match x with
          | Return r0 g0 =>
              r0 = -1 /\ opterr g0 = opterr g /\ stderr g0 = stderr g
          | Continue g0 => opterr g0 = opterr g /\ stderr g0 = stderr g
          end) as Hx.
  { simpl in E. destruct (arg_idx g =? 0).
    - apply new_entry_frame in E. destruct x; simpl in E; tauto.
    - injection E as <-. auto. }
  destruct x as [r0 g0 | g0].
  - injection H as <- <-. destruct Hx as (_ & He & Hs). split; [exact He|].
    now left.
  - destruct Hx as (He & Hs). apply scan_option_frame in H.
    destruct H as (He' & Hw). split; [congruence|].
    destruct Hw as [Hw | (H1 & H2 & H3 & msg & Hm & Hw)]; [left; congruence|].
    right. rewrite <- He, <- Hs. repeat split; auto. exists msg. auto.
Qed.

(** X1: [getopt] never changes [opterr], and a call writes nothing to
    [stderr] or exactly one line; it writes one only when diagnostics are
    on ([opterr] not 0 and no leading ':'), it then returns '?', and the
    line names the character left in [optopt]. *)
Theorem getopt_diagnostics argc argv opt_str g r g' :
  getopt argc argv opt_str g = Ok (r, g') ->
  opterr g' = opterr g /\ wrote opt_str g r g'.
Proof. apply getopt_frame. Qed.

Lemma getopt_diagnostics_witness :
  opterr {| optarg := None; optind := 2; opterr := 1; optopt := 120;
            arg_idx := 0;
            stderr := [{| d_msg := "invalid option"; d_opt := "x" |}] |}
  = opterr initial /\
  wrote "h" initial 63
    {| optarg := None; optind := 2; opterr := 1; optopt := 120;
       arg_idx := 0;
       stderr := [{| d_msg := "invalid option"; d_opt := "x" |}] |}.
Proof.
  apply (getopt_diagnostics 2 [Some "prog"; Some "-x"] "h" initial).
  reflexivity.
Defined.

(** X2: with [opterr] 0, or with a specification string that begins with
    ':', [getopt] writes nothing, whatever the vector and the state. *)
Theorem getopt_quiet argc argv opt_str g r g' :
  opterr g = 0 \/ first_char opt_str = ":"%char ->
  getopt argc argv opt_str g = Ok (r, g') ->
  stderr g' = stderr g.
Proof.
  intros Hq H. destruct (getopt_frame _ _ _ _ _ _ H) as (_ & [Hw|Hw]);
    [exact Hw|].
  destruct Hw as (H1 & H2 & _). tauto.
Qed.

Lemma getopt_quiet_witness :
  stderr {| optarg := None; optind := 2; opterr := 1; optopt := 120;
            arg_idx := 0; stderr := [] |} = stderr initial.
Proof.
  apply (getopt_quiet 2 [Some "prog"; Some "-x"] ":h" initial 63).
  - right. reflexivity.
  - reflexivity.
Defined.

(** ** What a call returns *)

(** A character with a kind other than [Unknown] occurs in the
    specification string and is not ':'. *)
Lemma option_kind_declared opt_str a k :
  a <> NUL -> option_kind opt_str a = Ok k -> k <> Unknown ->
  In a (chars opt_str) /\ a <> ":"%char.
Proof.
  intros N Hk Hu.
  assert (~ unknown_option_char opt_str a) as Hn.
  { intros H. apply (option_kind_unknown opt_str a N) in H. congruence. }
  unfold unknown_option_char in Hn. split.
  - destruct (in_dec ascii_dec a (chars opt_str)); tauto.
  - tauto.
Qed.

Lemma getopt_return_cases argc argv opt_str g r g' :
  cursor_ok argv g ->
  getopt argc argv opt_str g = Ok (r, g') ->
  r = -1 \/ r = 63 \/
  (r = 58 /\ first_char opt_str = ":"%char) \/
  (exists a, r = int_of_char a /\ In a (chars opt_str) /\ a <> ":"%char).
Proof.
  intros Hok H. pose proof (getopt_call _ _ _ _ _ _ Hok H) as C.
  inversion C as [Hn | He | tok j a n Hs Hk Hn | tok j a n Hs Hk Hn
                 | tok j a n Hs Hk Hn N | tok j a e Hs Hk Hn Hlt He
                 | tok j a Hs Hk Hn Hge];
    subst; auto;
    destruct (scans_char _ _ _ _ _ _ Hs) as (_ & _ & Na & _).
  - right; right; right. exists a. split; [reflexivity|].
    now apply option_kind_declared with Flag.
  - right; right; right. exists a. split; [reflexivity|].
    now apply option_kind_declared with WithArgument.
  - right; right; right. exists a. split; [reflexivity|].
    now apply option_kind_declared with WithArgument.
  - destruct (Ascii.eqb_spec (first_char opt_str) ":"); auto.
Qed.

(** X3: what [getopt] can return: -1, '?', ':' and then the specification
    string begins with ':', or a character of the specification string other
    than ':' (as an [int]).  A caller that handles these has handled every
    return. *)
Theorem getopt_returns argc argv opt_str g r g' :
  cursor_ok argv g ->
  getopt argc argv opt_str g = Ok (r, g') ->
  r = -1 \/ r = 63 \/
  (r = 58 /\ first_char opt_str = ":"%char) \/
  (exists a, r = int_of_char a /\ In a (chars opt_str) /\ a <> ":"%char).
Proof. apply getopt_return_cases. Qed.

Lemma getopt_returns_witness :
  102 = -1 \/ 102 = 63 \/
  (102 = 58 /\ first_char ":hva1f:" = ":"%char) \/
  (exists a, 102 = int_of_char a /\ In a (chars ":hva1f:") /\ a <> ":"%char).
Proof.
  apply (getopt_returns 2 [Some "prog"; Some "-fx"] ":hva1f:" initial 102
           {| optarg := Some {| p_elem := 1; p_off := 2 |}; optind := 2;
              opterr := 1; optopt := 102; arg_idx := 0; stderr := [] |}).
  - left. reflexivity.
  - reflexivity.
Defined.

(** X4: when [getopt] returns -1 there is no option entry under the index
    (the index is not below [argc], or the entry is null, does not begin
    with '-' or is "-"), or "--" is, or the call has scanned a character of
    the specification string whose value as an [int] is -1 (the byte 255
    where [char] is signed). *)
Theorem getopt_end_only argc argv opt_str g g' :
  cursor_ok argv g ->
  getopt argc argv opt_str g = Ok (-1, g') ->
  no_more argc argv g \/ end_marker argc argv g \/
  exists tok j a,
    scans argc argv g tok j a /\ int_of_char a = -1 /\
    In a (chars opt_str).
Proof.
  intros Hok H. pose proof (getopt_call _ _ _ _ _ _ Hok H) as C.
  inversion C as [Hn | He | tok j a n Hs Hk Hn | tok j a n Hs Hk Hn
                 | tok j a n Hs Hk Hn N | tok j a e Hs Hk Hn Hlt He
                 | tok j a Hs Hk Hn Hge];
    subst; auto;
    try (destruct (scans_char _ _ _ _ _ _ Hs) as (_ & _ & Na & _);
         right; right; exists tok, j, a; repeat split; auto;
         first [ now apply option_kind_declared with Flag
               | now apply option_kind_declared with WithArgument ]).
  destruct (Ascii.eqb (first_char opt_str) ":"); discriminate.
Qed.

Lemma getopt_end_only_witness :
  no_more 2 [Some "prog"; Some "file"] initial \/
  end_marker 2 [Some "prog"; Some "file"] initial \/
  exists tok j a,
    scans 2 [Some "prog"; Some "file"] initial tok j a /\
    int_of_char a = -1 /\ In a (chars "x").
Proof.
  apply (getopt_end_only 2 [Some "prog"; Some "file"] "x" initial initial).
  - left. reflexivity.
  - reflexivity.
Defined.

(** ** The index *)

Lemma getopt_optind_step argc argv opt_str g r g' :
  arg_idx g = 0 \/ inside_entry argc argv g ->
  getopt argc argv opt_str g = Ok (r, g') ->
  optind g <= optind g' <= optind g + 2 /\
  optind g' <= Z.max (optind g) argc.
Proof.
  intros Hin H.
  assert (cursor_ok argv g) as Hok.
  { destruct Hin as [|(_ & _ & tok & a & Ht & _ & Ha & N)];
      [now left | right; eauto]. }
  pose proof (getopt_call _ _ _ _ _ _ Hok H) as C.
  inversion C as [Hn | He | tok j a n Hs Hk Hn | tok j a n Hs Hk Hn
                 | tok j a n Hs Hk Hn N | tok j a e Hs Hk Hn Hlt He
                 | tok j a Hs Hk Hn Hge];
    subst; simpl;
    try (destruct (scans_inside _ _ _ _ _ _ Hs Hin) as (Hc & _));
    try (destruct (Ascii.eqb n NUL)); try lia.
  destruct He as (_ & Hc & _). lia.
Qed.

(** The index moves only over an entry that begins with '-', and then the
    offset is 0; it moves over the entry behind that one too only when
    that entry has become [optarg]. *)
Lemma getopt_optind_moves argc argv opt_str g r g' :
  arg_idx g = 0 \/ inside_entry argc argv g ->
  getopt argc argv opt_str g = Ok (r, g') ->
  (optind g < optind g' ->
   optind g < argc /\ arg_idx g' = 0 /\
   exists tok, argv_at argv (optind g) = Ok (Some tok) /\
               first_char tok = "-"%char) /\
  (optind g' = optind g + 2 ->
   optind g + 1 < argc /\
   exists e, argv_at argv (optind g + 1) = Ok e /\
             optarg g' = match e with
                         | Some _ =>
                             Some {| p_elem := optind g + 1; p_off := 0 |}
                         | None => None
                         end).
Proof.
  intros Hin H.
  assert (cursor_ok argv g) as Hok.
  { destruct Hin as [|(_ & _ & tok & a & Ht & _ & Ha & N)];
      [now left | right; eauto]. }
  pose proof (getopt_call _ _ _ _ _ _ Hok H) as C.
  inversion C as [Hn | He | tok j a n Hs Hk Hn | tok j a n Hs Hk Hn
                 | tok j a n Hs Hk Hn N | tok j a e Hs Hk Hn Hlt He
                 | tok j a Hs Hk Hn Hge];
    subst; simpl;
    try (destruct (scans_inside _ _ _ _ _ _ Hs Hin) as (Hc & Hd);
         destruct (scans_char _ _ _ _ _ _ Hs) as (Ht & _));
    try (destruct (Ascii.eqb n NUL));
    (split; [intros Hmove | intros Htwo]); try lia;
    try (split; [assumption|]; split; [reflexivity|]; now exists tok).
  - destruct He as (H0 & Hc & tok & Ht & Htok).
    split; [assumption|]. split; [assumption|]. exists tok.
    split; [assumption|].
    destruct tok as [|b tok]; simpl in *; [discriminate|].
    destruct (Ascii.eqb b NUL); congruence.
  - split; [assumption|]. now exists e.
Qed.

(** X5: in one scan the index stays between 1 and [argc] (1 when [argc] is
    less), and a call never moves it back and never by more than two
    entries.  A call that moves it steps over an entry below [argc] that
    begins with '-' and leaves the offset at 0; a call that moves it by two
    has made the second of the two entries [optarg]. *)
Theorem optind_bounds argc argv g :
  reachable argc argv g ->
  1 <= optind g <= Z.max 1 argc /\
  forall opt_str r g',
    getopt argc argv opt_str g = Ok (r, g') ->
    (optind g <= optind g' <= optind g + 2 /\ optind g' <= Z.max 1 argc) /\
    (optind g < optind g' ->
     optind g < argc /\ arg_idx g' = 0 /\
     exists tok, argv_at argv (optind g) = Ok (Some tok) /\
                 first_char tok = "-"%char) /\
    (optind g' = optind g + 2 ->
     optind g + 1 < argc /\
     exists e, argv_at argv (optind g + 1) = Ok e /\
               optarg g' = match e with
                           | Some _ =>
                               Some {| p_elem := optind g + 1; p_off := 0 |}
                           | None => None
                           end).
Proof.
  intros Hr.
  assert (1 <= optind g <= Z.max 1 argc) as Hb.
  { induction Hr as [g Hi Hj | g opt_str r g' Hr IH H]; [lia|].
    destruct (reachable_inv _ _ _ Hr) as (_ & Hin).
    pose proof (getopt_optind_step _ _ _ _ _ _ Hin H). lia. }
  split; [exact Hb|]. intros opt_str r g' H.
  destruct (reachable_inv _ _ _ Hr) as (_ & Hin).
  pose proof (getopt_optind_step _ _ _ _ _ _ Hin H).
  split; [lia|]. now apply getopt_optind_moves with opt_str r.
Qed.

Lemma optind_bounds_witness :
  (1 <= optind {| optarg := Some {| p_elem := 2; p_off := 0 |}; optind := 3;
                  opterr := 1; optopt := 102; arg_idx := 0; stderr := [] |}
   <= Z.max 1 3) /\
  (1 + 1 < 3 /\
   exists e,
     argv_at [Some "prog"; Some "-f"; Some "value"] (1 + 1) = Ok e /\
     Some {| p_elem := 2; p_off := 0 |}
     = match e with
       | Some _ => Some {| p_elem := 1 + 1; p_off := 0 |}
       | None => None
       end).
Proof.
  split.
  - apply (optind_bounds 3 [Some "prog"; Some "-f"; Some "value"]).
    apply reach_call with initial "f:" 102; [|reflexivity].
    apply reach_start; reflexivity.
  - destruct (optind_bounds 3 [Some "prog"; Some "-f"; Some "value"] initial)
      as (_ & Hcall).
    + apply reach_start; reflexivity.
    + destruct (Hcall "f:" 102
                  {| optarg := Some {| p_elem := 2; p_off := 0 |};
                     optind := 3; opterr := 1; optopt := 102; arg_idx := 0;
                     stderr := [] |} eq_refl) as (_ & _ & Htwo).
      apply Htwo. reflexivity.
Defined.

(** ** The end of the scan *)

Lemma vector_size_skipn (argv : arg_vector) (i : nat) (e : option string) :
  nth_error argv i = Some e ->
  vector_size (skipn i argv)
  = (entry_size e + vector_size (skipn (S i) argv))%nat.
Proof.
  revert i. induction argv as [|e' argv IH]; intros [|i] H;
    try discriminate; simpl in *.
  - now injection H as ->.
  - now apply IH.
Qed.

Lemma argv_at_nth (argv : arg_vector) (i : Z) (e : option string) :
  argv_at argv i = Ok e -> 0 <= i /\ nth_error argv (Z.to_nat i) = Some e.
Proof.
  unfold argv_at. destruct (Z.ltb_spec i 0); [discriminate|].
  destruct (nth_error argv (Z.to_nat i)); [|discriminate].
  injection 1 as <-. auto.
Qed.

(** A call that scans moves the cursor on. *)
Lemma getopt_progress argc argv opt_str g r g' :
  getopt argc argv opt_str g = Ok (r, g') ->
  (exists tok j a, scans argc argv g tok j a) ->
  (ahead argv g' < ahead argv g)%nat.
Proof.
  intros H (tok & j & a & Hs).
  destruct (scans_char _ _ _ _ _ _ Hs) as (Ht & Ha & N & Hj).
  pose proof (char_at_not_NUL _ _ _ Ha N) as Hlt.
  destruct (argv_at_nth _ _ _ Ht) as (Hi & Hnth).
  pose proof (vector_size_skipn _ _ _ Hnth) as Hsz. unfold entry_size in Hsz.
  pose proof (scans_arg_idx _ _ _ _ _ _ Hs) as Hidx.
  destruct (getopt_scan_cases _ _ _ _ _ _ _ _ _ Hs H)
    as (k & n & Hk & Hn & _ & _ & Hcase).
  assert (optind g' = optind g /\ arg_idx g' = j + 1 \/
          arg_idx g' = 0 /\ optind g' = optind g + 1 \/
          arg_idx g' = 0 /\ optind g' = optind g + 2 /\
          exists e, argv_at argv (optind g + 1) = Ok e) as Hc.
  { destruct k.
    - destruct Hcase as (_ & _ & E1 & E2). rewrite E1, E2.
      destruct (Ascii.eqb n NUL); auto.
    - destruct Hcase as (_ & _ & E1 & E2). rewrite E1, E2.
      destruct (Ascii.eqb n NUL); auto.
    - destruct Hcase as (E0 & [(_ & _ & _ & E1) | [(_ & _ & _ & E1 & e & He & _)
                               | (_ & _ & _ & _ & E1)]]); eauto 10. }
  unfold ahead.
  destruct Hc as [(E1 & E2) | [(E2 & E1) | (E2 & E1 & e & He)]];
    rewrite E1, E2.
  - lia.
  - replace (Z.to_nat (optind g + 1)) with (S (Z.to_nat (optind g))) by lia.
    lia.
  - destruct (argv_at_nth _ _ _ He) as (_ & Hnth').
    replace (Z.to_nat (optind g + 1)) with (S (Z.to_nat (optind g)))
      in Hnth' by lia.
    pose proof (vector_size_skipn _ _ _ Hnth') as Hsz'.
    assert (1 <= entry_size e)%nat by (destruct e; simpl; lia).
    replace (Z.to_nat (optind g + 2)) with (S (S (Z.to_nat (optind g))))
      by lia.
    lia.
Qed.

Lemma reachable_cursor_ok argc argv g :
  reachable argc argv g -> cursor_ok argv g.
Proof.
  intros Hr. destruct (reachable_inv _ _ _ Hr) as (_ & Hin).
  destruct Hin as [|(_ & _ & tok & a & Ht & _ & Ha & N)];
    [now left | right; eauto].
Qed.

(** A call that returns and does not scan returns -1. *)
Lemma getopt_no_scan argc argv opt_str g r g' :
  cursor_ok argv g ->
  getopt argc argv opt_str g = Ok (r, g') ->
  r = -1 \/ exists tok j a, scans argc argv g tok j a.
Proof.
  intros Hok H.
  destruct (getopt_looks_at _ _ _ _ _ _ Hok H) as [Hn | [He | Hs]]; auto.
  - rewrite (getopt_no_more _ _ _ _ Hn) in H. left. congruence.
  - pose proof (getopt_end_marker_bound _ _ _ _ _ _ He H) as Hb.
    rewrite (getopt_end_marker _ _ _ _ He Hb) in H. left. congruence.
Qed.

Lemma scan_ends argc argv opt_str :
  vector_ok argc argv ->
  forall m g,
    (ahead argv g <= m)%nat -> reachable argc argv g ->
    exists n rs g',
      (n <= m)%nat /\ List.length rs = n /\
      Forall (fun r => r <> -1) rs /\
      getopt_calls (S n) argc argv opt_str g = Ok (rs ++ [-1], g').
Proof.
  intros Hv. induction m as [|m IH]; intros g Hm Hr.
  - destruct (reachable_inv _ _ _ Hr) as (Hi & Hin).
    destruct (getopt_total argc argv opt_str g Hv ltac:(lia) Hin)
      as (r & g1 & H).
    destruct (getopt_no_scan _ _ _ _ _ _ (reachable_cursor_ok _ _ _ Hr) H)
      as [-> | Hs].
    + exists 0%nat, [], g1. repeat split; auto.
      now apply getopt_calls_S with g1.
    + pose proof (getopt_progress _ _ _ _ _ _ H Hs). lia.
  - destruct (reachable_inv _ _ _ Hr) as (Hi & Hin).
    destruct (getopt_total argc argv opt_str g Hv ltac:(lia) Hin)
      as (r & g1 & H).
    destruct (Z.eq_dec r (-1)) as [-> | Hne].
    + exists 0%nat, [], g1. repeat split; auto; try lia.
      now apply getopt_calls_S with g1.
    + destruct (getopt_no_scan _ _ _ _ _ _ (reachable_cursor_ok _ _ _ Hr) H)
        as [? | Hs]; [contradiction|].
      pose proof (getopt_progress _ _ _ _ _ _ H Hs) as Hp.
      destruct (IH g1) as (n & rs & g' & Hn & Hl & Hall & Hc);
        [lia | now apply reach_call with g opt_str r |].
      exists (S n), (r :: rs), g'. repeat split; auto; try lia.
      * simpl. now rewrite Hl.
      * simpl app. now apply getopt_calls_S with g1.
Qed.

(** X6: a scan ends.  From every state of a scan over a well-formed vector,
    calling [getopt] again and again returns -1 after at most as many other
    returns as there are bytes ahead of the cursor; no call before that
    fails. *)
Theorem scan_terminates argc argv opt_str g :
  vector_ok argc argv -> reachable argc argv g ->
  exists n rs g',
    (n <= ahead argv g)%nat /\ List.length rs = n /\
    Forall (fun r => r <> -1) rs /\
    getopt_calls (S n) argc argv opt_str g = Ok (rs ++ [-1], g').
Proof.
  intros Hv Hr. now apply scan_ends with (m := ahead argv g).
Qed.

Lemma scan_terminates_witness :
  exists n rs g',
    (n <= ahead [Some "prog"; Some "-ab"; Some "file"] initial)%nat /\
    List.length rs = n /\
    Forall (fun r => r <> -1) rs /\
    getopt_calls (S n) 3 [Some "prog"; Some "-ab"; Some "file"] "ab" initial
    = Ok (rs ++ [-1], g').
Proof.
  apply (scan_terminates 3 [Some "prog"; Some "-ab"; Some "file"] "ab" initial).
  - split; [unfold INT_MAX; lia|]. split; [simpl; lia|].
    repeat constructor; unfold INT_MAX; simpl; lia.
  - apply reach_start; reflexivity.
Defined.

(** ** Several entries of options without arguments *)

Lemma getopt_calls_app n m argc argv opt_str g rs1 g1 rs2 g2 :
  getopt_calls n argc argv opt_str g = Ok (rs1, g1) ->
  getopt_calls m argc argv opt_str g1 = Ok (rs2, g2) ->
  getopt_calls (n + m) argc argv opt_str g = Ok (rs1 ++ rs2, g2).
Proof.
  revert g rs1. induction n as [|n IH]; intros g rs1 H1 H2; simpl in *.
  - injection H1 as <- <-. exact H2.
  - bind_inv H1. bind_inv H1. injection H1 as <- <-.
    rewrite E. simpl. destruct x0 as [rs g0]. simpl in *.
    rewrite (IH _ _ E0 H2). reflexivity.
Qed.

(** One whole entry "-" ++ c :: cs of characters that take no argument. *)
Lemma getopt_calls_entry argc argv opt_str g c cs :
  arg_idx g = 0 -> optind g < argc -> vector_ok argc argv ->
  argv_at argv (optind g) = Ok (Some (String "-" (string_of_list_ascii (c :: cs)))) ->
  cstr (String "-" (string_of_list_ascii (c :: cs))) <> "--" ->
  Forall (takes_no_argument opt_str) (c :: cs) ->
  exists g',
    getopt_calls (List.length (c :: cs)) argc argv opt_str g
    = Ok (map (returned_for opt_str) (c :: cs), g') /\
    optind g' = optind g + 1 /\ arg_idx g' = 0.
Proof.
  intros H0 Hc Hv Ht Hmark Hall.
  set (tok := String "-" (string_of_list_ascii (c :: cs))) in *.
  assert (c <> NUL) as N by (inversion Hall as [|? ? [? _] _]; auto).
  assert (forall k, (k <= S (List.length cs))%nat ->
            char_at tok (1 + Z.of_nat k) = Ok (nth k (c :: cs) NUL)) as Hat.
  { intros k Hk. unfold tok.
    replace (string_of_list_ascii (c :: cs))
      with (string_of_list_ascii (c :: cs) ++ "")%string.
    - now apply (char_at_packed (c :: cs) "" k).
    - generalize (string_of_list_ascii (c :: cs)).
      induction s as [|a s IH]; simpl; [reflexivity | now rewrite IH]. }
  assert (scans argc argv g tok 1 c) as Hs.
  { apply scans_new; auto.
    repeat split; auto. unfold tok. simpl.
    rewrite (eqb_NUL_false _ N). discriminate. }
  pose proof (vector_ok_length _ _ _ _ Hv Ht) as Hlen.
  destruct Hv as (Hargc & _).
  destruct (getopt_calls_run argc argv opt_str tok NUL cs Hargc Hlen c 1 g Hs)
    as (g' & H & _ & _ & Hind & Hidx); [lia | exact Hat | exact Hall |].
  exists g'. split; [exact H|]. simpl in Hind, Hidx. auto.
Qed.

Lemma getopt_calls_entries argc argv opt_str (entries : list (list ascii)) :
  vector_ok argc argv ->
  Forall (fun cs => cs <> [] /\
                    cstr (String "-" (string_of_list_ascii cs)) <> "--" /\
                    Forall (takes_no_argument opt_str) cs) entries ->
  forall g,
    arg_idx g = 0 ->
    optind g + Z.of_nat (List.length entries) <= argc ->
    (forall i cs,
       nth_error entries i = Some cs ->
       argv_at argv (optind g + Z.of_nat i)
       = Ok (Some (String "-" (string_of_list_ascii cs)))) ->
    exists g',
      getopt_calls (List.length (List.concat entries)) argc argv opt_str g
      = Ok (map (returned_for opt_str) (List.concat entries), g') /\
      optind g' = optind g + Z.of_nat (List.length entries) /\
      arg_idx g' = 0.
Proof.
  intros Hv Hall. induction Hall as [|cs entries (Hne & Hmark & Hcs) _ IH];
    intros g H0 Hc Hat.
  - exists g. simpl. repeat split; auto. lia.
  - destruct cs as [|c cs]; [contradiction|].
    assert (argv_at argv (optind g)
            = Ok (Some (String "-" (string_of_list_ascii (c :: cs))))) as Ht.
    { specialize (Hat 0%nat (c :: cs) eq_refl).
      now rewrite Z.add_0_r in Hat. }
    simpl List.length in Hc.
    destruct (getopt_calls_entry argc argv opt_str g c cs H0 ltac:(lia) Hv Ht
                Hmark Hcs) as (g1 & H1 & Hi1 & Hj1).
    destruct (IH g1 Hj1) as (g' & H2 & Hi2 & Hj2).
    + lia.
    + intros i cs' Hnth. specialize (Hat (S i) cs' Hnth).
      rewrite Hi1. replace (optind g + 1 + Z.of_nat i)
        with (optind g + Z.of_nat (S i)) by lia. exact Hat.
    + exists g'.
      change (List.concat ((c :: cs) :: entries))
        with ((c :: cs) ++ List.concat entries).
      rewrite length_app, map_app.
      split; [now apply getopt_calls_app with g1|].
      split; [simpl List.length; lia | exact Hj2].
Qed.

(** X7: entries that hold only characters without argument are gone
    through one after the other.  When the entries from the index on are
    "-" ++ cs for the lists [cs] of [entries] (none empty, none "--"), then
    as many calls as there are characters return their codes in order, '?'
    for the unknown ones, and leave the cursor at the start of the entry
    behind them. *)
Theorem scan_flag_entries argc argv opt_str (entries : list (list ascii)) g :
  vector_ok argc argv ->
  Forall (fun cs => cs <> [] /\
                    cstr (String "-" (string_of_list_ascii cs)) <> "--" /\
                    Forall (takes_no_argument opt_str) cs) entries ->
  arg_idx g = 0 ->
  optind g + Z.of_nat (List.length entries) <= argc ->
  (forall i cs,
     nth_error entries i = Some cs ->
     argv_at argv (optind g + Z.of_nat i)
     = Ok (Some (String "-" (string_of_list_ascii cs)))) ->
  exists g',
    getopt_calls (List.length (List.concat entries)) argc argv opt_str g
    = Ok (map (returned_for opt_str) (List.concat entries), g') /\
    optind g' = optind g + Z.of_nat (List.length entries) /\
    arg_idx g' = 0.
Proof.
  intros Hv Hall H0 Hc Hat.
  exact (getopt_calls_entries argc argv opt_str entries Hv Hall g H0 Hc Hat).
Qed.

Lemma scan_flag_entries_witness :
  exists g',
    getopt_calls 3 4 [Some "prog"; Some "-ab"; Some "-x"; Some "file"] "ab"
      initial
    = Ok (map (returned_for "ab") ["a"; "b"; "x"]%char, g') /\
    optind g' = 1 + 2 /\ arg_idx g' = 0.
Proof.
  apply (scan_flag_entries 4 [Some "prog"; Some "-ab"; Some "-x"; Some "file"]
           "ab" [["a"; "b"]; ["x"]]%char).
  - split; [unfold INT_MAX; lia|]. split; [simpl; lia|].
    repeat constructor; unfold INT_MAX; simpl; lia.
  - assert (forall a k, option_kind "ab" a = Ok k -> a <> NUL ->
                     k = Flag \/ k = Unknown -> takes_no_argument "ab" a)
      as Hk by (intros a k Hk N [->| ->]; split; auto).
    constructor; [|constructor; [|constructor]];
      (split; [discriminate|]); (split; [discriminate|]).
    + constructor; [|constructor; [|constructor]].
      * apply (Hk "a"%char Flag); [reflexivity | discriminate | now left].
      * apply (Hk "b"%char Flag); [reflexivity | discriminate | now left].
    + constructor; [|constructor].
      apply (Hk "x"%char Unknown); [reflexivity | discriminate | now right].
  - reflexivity.
  - simpl. lia.
  - intros [|[|[|i]]] cs H; simpl in H; try discriminate;
      injection H as <-; reflexivity.
Defined.

(** * The line of a diagnostic *)

Lemma append_nil_r (s : string) : append s EmptyString = s.
Proof. induction s as [|a s IH]; simpl; [reflexivity | now rewrite IH]. Qed.

(** Where [strrchr] finds the last backslash. *)
Lemma strrchr_backslash (s : string) :
  match strrchr s 92 with
  | None => ~ In "\"%char (chars s)
  | Some k =>
      0 <= k /\
      exists dir,
        cstr s = append dir (String "\" (cstr (drop (Z.to_nat (k + 1)) s))) /\
        ~ In "\"%char (chars (drop (Z.to_nat (k + 1)) s))
  end.
Proof.
  unfold chars. induction s as [|a s IH]; simpl.
  - tauto.
  - change (char_of_int 92) with "\"%char.
    destruct (Ascii.eqb_spec a NUL) as [->|N]; simpl; [tauto|].
    destruct (strrchr s 92) as [k|].
    + destruct IH as (Hk & dir & E & Hn). split; [lia|].
      replace (Z.to_nat (Z.succ k + 1)) with (S (Z.to_nat (k + 1))) by lia.
      simpl. exists (String a dir). simpl. now rewrite E.
    + destruct (Ascii.eqb_spec a "\") as [->|Hb]; simpl.
      * split; [lia|]. exists EmptyString. simpl. auto.
      * intros [H|H]; auto.
Qed.

(** X8: the name in front of a diagnostic is the path of the program behind
    its last backslash: the text of the path is a directory part followed by
    the name, there is no backslash in the name, and the directory part is
    empty when the path holds no backslash and ends with one when it does.
    When the path cannot be had, the name is "Error". *)
Theorem short_name_is_base (path : string) :
  short_name None = "Error" /\
  ~ In "\"%char (chars (short_name (Some path))) /\
  exists dir,
    cstr path = append dir (cstr (short_name (Some path))) /\
    (~ In "\"%char (chars path) -> dir = EmptyString) /\
    (In "\"%char (chars path) -> exists d, dir = append d "\").
Proof.
  split; [reflexivity|]. unfold short_name.
  pose proof (strrchr_backslash path) as H.
  destruct (strrchr path 92) as [k|].
  - destruct H as (Hk & dir & E & Hn). split; [exact Hn|].
    exists (append dir "\"). split; [|split].
    + rewrite E. clear. induction dir as [|a dir IH]; simpl;
        [reflexivity | now rewrite IH].
    + intros Hno. exfalso. apply Hno. unfold chars. rewrite E. clear.
      induction dir as [|a dir IH]; simpl; auto.
    + intros _. now exists dir.
  - split; [exact H|]. exists EmptyString. simpl. split; [reflexivity|].
    split; [reflexivity | contradiction].
Qed.

(** X9: the line [getopt] writes for an unknown option character [a], when
    diagnostics are on: the name of the program, " : invalid option '-",
    the character, a quote and a new line; it is the one line the call
    adds. *)
Theorem unknown_option_line argc argv opt_str g tok j a pgmptr :
  scans argc argv g tok j a -> no_overflow argc g j ->
  unknown_option_char opt_str a ->
  opterr g <> 0 -> first_char opt_str <> ":"%char ->
  exists g',
    getopt argc argv opt_str g = Ok (63, g') /\
    getopt_said pgmptr g g'
    = [(to_stderr,
        append (cstr (short_name pgmptr))
          (append " : invalid option '-" (String a (append "'" nl))))].
Proof.
  intros Hs (Hargc & Hi & Hj) Hu He Hc.
  destruct (scans_char _ _ _ _ _ _ Hs) as (_ & _ & N & _).
  apply (option_kind_unknown opt_str a N) in Hu.
  destruct (scans_next _ _ _ _ _ _ Hs) as (n & Hn).
  rewrite (getopt_unknown argc argv opt_str g tok j a Hs Hj n Hu Hn) by auto.
  eexists. split; [reflexivity|].
  unfold getopt_said, printed. simpl.
  rewrite (proj2 (Z.eqb_neq _ _) He), (proj2 (Ascii.eqb_neq _ _) Hc). simpl.
  rewrite skipn_app, skipn_all, Nat.sub_diag. simpl.
  unfold diag_line. simpl. now rewrite char_of_int_of_char.
Qed.

Lemma unknown_option_line_witness :
  exists g',
    getopt 2 [Some "prog"; Some "-x"] "h" initial = Ok (63, g') /\
    getopt_said (Some "C:\bin\tool.exe") initial g'
    = [(to_stderr,
        append (cstr (short_name (Some "C:\bin\tool.exe")))
          (append " : invalid option '-" (String "x" (append "'" nl))))].
Proof.
  apply (unknown_option_line 2 [Some "prog"; Some "-x"] "h" initial "-x" 1 "x").
  - apply scans_new; try reflexivity.
    repeat split; discriminate.
  - unfold no_overflow, INT_MAX; simpl; lia.
  - right. simpl. intros [H|H]; [discriminate | exact H].
  - discriminate.
  - discriminate.
Defined.

(** * example.c *)

Example example_run :
  example_main 10 None 4 [Some "prog"; Some "-vf"; Some "in.txt"; Some "more"]
  = Ok (Some ([ (to_stdout, append "Version 1.01" nl);
                (to_stdout,
                 append "You supplied the filename "
                   (append dq (append "in.txt" (append dq nl))));
                (to_stdout, nl);
                (to_stdout, "non-option argv elements : ");
                (to_stdout, "more ");
                (to_stdout, nl) ], 0)).
Proof. reflexivity. Qed.

(** ** What the switch sees *)

(** With the specification string of [main], [getopt] returns -1 or one of
    the values the [switch] has a case for. *)
Lemma example_returns argc argv g c g' :
  cursor_ok argv g ->
  getopt argc argv example_opt_str g = Ok (c, g') ->
  c = -1 \/ c = 63 \/ c = 58 \/ c = 104 \/ c = 118 \/ c = 97 \/ c = 49 \/
  c = 102.
Proof.
  intros Hok H.
  destruct (getopt_return_cases _ _ _ _ _ _ Hok H)
    as [E | [E | [(E & _) | (a & E & Hin & Hc)]]]; auto 10.
  simpl in Hin.
  destruct Hin as [<-|[<-|[<-|[<-|[<-|[<-|[<-|[]]]]]]]];
    subst c; auto 10; now destruct Hc.
Qed.

(** When 'f' is returned, [optarg] points at a text, if the entries below
    [argc] are not null. *)
Lemma example_filename argc argv g g' :
  cursor_ok argv g ->
  (forall i, 0 <= i < argc -> exists tok, argv_at argv i = Ok (Some tok)) ->
  getopt argc argv example_opt_str g = Ok (102, g') ->
  exists t, optarg_text argv g' = Some t.
Proof.
  intros Hok Hnn H. pose proof (getopt_call _ _ _ _ _ _ Hok H) as C.
  inversion C as [Hn | He | tok j a n Hs Hk Hn | tok j a n Hs Hk Hn
                 | tok j a n Hs Hk Hn N | tok j a e Hs Hk Hn Hlt He
                 | tok j a Hs Hk Hn Hge];
    subst;
    try (destruct (scans_char _ _ _ _ _ _ Hs) as (Ht & _)).
  - assert (a = "f"%char) as -> by now apply int_of_char_inj.
    discriminate Hk.
  - unfold optarg_text. simpl. rewrite Ht. eauto.
  - destruct (argv_at_nth _ _ _ Ht) as (Hi & _).
    destruct (Hnn (optind g + 1)) as (next & Hnext); [lia|].
    rewrite Hnext in He. injection He as <-.
    unfold optarg_text. simpl. rewrite Hnext. eauto.
Qed.

(** The cases of the [switch] other than [default] print other lines than
    the one of [default]. *)
Lemma example_case_lines argv c g out :
  c = 63 \/ c = 58 \/ c = 104 \/ c = 118 \/ c = 97 \/ c = 49 \/ c = 102 ->
  example_case argv c g = Ok out ->
  Forall (fun e => forall c', e <> (to_stderr, unknown_return_line c')) out.
Proof.
  unfold example_case, unknown_return_line.
  intros [->|[->|[->|[->|[->|[->| ->]]]]]] H; simpl in H;
    try bind_inv H; injection H as <-;
    repeat constructor; intros c'; discriminate.
Qed.

Lemma example_case_total argv c g :
  c = 63 \/ c = 58 \/ c = 104 \/ c = 118 \/ c = 97 \/ c = 49 \/
  (c = 102 /\ exists t, optarg_text argv g = Some t) ->
  exists out, example_case argv c g = Ok out.
Proof.
  unfold example_case.
  intros [->|[->|[->|[->|[->|[->|(-> & t & Ht)]]]]]]; simpl; eauto.
  rewrite Ht. simpl. eauto.
Qed.

Lemma getopt_said_quiet pgmptr argc argv opt_str g r g' :
  opterr g = 0 \/ first_char opt_str = ":"%char ->
  getopt argc argv opt_str g = Ok (r, g') ->
  getopt_said pgmptr g g' = [] /\ stderr g' = stderr g /\
  opterr g' = opterr g.
Proof.
  intros Hq H. destruct (getopt_frame _ _ _ _ _ _ H) as (He & Hw).
  assert (stderr g' = stderr g) as Es
    by (destruct Hw as [|(H1 & H2 & _)]; [assumption | tauto]).
  unfold getopt_said. rewrite Es, skipn_all. auto.
Qed.

(** ** The loop over the options *)

Lemma example_loop_inv pgmptr argc argv :
  forall fuel g out g',
    cursor_ok argv g -> opterr g = 0 ->
    example_loop fuel pgmptr argc argv g = Ok (Some (out, g')) ->
    stderr g' = stderr g /\ opterr g' = 0 /\
    Forall (fun e => forall c, e <> (to_stderr, unknown_return_line c)) out.
Proof.
  induction fuel as [|fuel IH]; intros g out g' Hok He H; simpl in H;
    [discriminate|].
  bind_inv H. destruct x as [c g1]. simpl in H.
  destruct (getopt_said_quiet pgmptr _ _ _ _ _ _ (or_introl He) E)
    as (Hsaid & Hs & He1).
  rewrite Hsaid in H. simpl in H.
  destruct (Z.eqb_spec c (-1)) as [->|Hc].
  - injection H as <- <-. repeat split; auto. congruence.
  - bind_inv H. bind_inv H. destruct x0 as [[rest g2]|]; [|discriminate].
    simpl in H. injection H as <- <-.
    destruct (IH g1 rest g2) as (Hs2 & He2 & Hall); auto.
    + now apply getopt_cursor_ok with argc example_opt_str g c.
    + congruence.
    + repeat split; try congruence. apply Forall_app. split; [|exact Hall].
      apply example_case_lines with argv c g1; [|assumption].
      destruct (example_returns _ _ _ _ _ Hok E) as [?|?];
        [contradiction | assumption].
Qed.

Lemma example_operands_lines argc argv :
  forall fuel g rest g',
    example_operands fuel argc argv g = Ok (Some (rest, g')) ->
    Forall (fun e => fst e = to_stdout) rest.
Proof.
  induction fuel as [|fuel IH]; intros g rest g' H; simpl in H;
    [discriminate|].
  destruct (optind g <? argc); [|injection H as <- <-; constructor].
  bind_inv H. bind_inv H. bind_inv H. bind_inv H.
  destruct x2 as [[rest' g2]|]; [|discriminate]. simpl in H.
  injection H as <- <-. constructor; [reflexivity|].
  now apply IH with (set_optind x1 g) g2.
Qed.

(** X10: [main] never gets to the [default] case of its [switch]: whatever
    the vector, what it prints holds no "UNKNOWN RETURN VALUE" line, and it
    ends with status 0. *)
Theorem example_default_unreachable fuel pgmptr argc argv out status :
  example_main fuel pgmptr argc argv = Ok (Some (out, status)) ->
  status = 0 /\
  Forall (fun e => forall c, e <> (to_stderr, unknown_return_line c)) out.
Proof.
  unfold example_main. intros H. bind_inv H.
  destruct x as [[out1 g1]|]; [|discriminate].
  assert (cursor_ok argv (set_opterr 0 initial)) as Hok by now left.
  destruct (example_loop_inv pgmptr argc argv fuel _ _ _ Hok eq_refl E)
    as (_ & _ & Hall).
  assert (Forall (fun e : event => forall c, e <> (to_stderr, unknown_return_line c))
            (out1 ++ [(to_stdout, nl)])) as Hall1.
  { apply Forall_app. split; [exact Hall|].
    repeat constructor. intros c. discriminate. }
  destruct (optind g1 <? argc).
  - bind_inv H. destruct x as [[rest g2]|]; [|discriminate].
    injection H as <- <-. split; [reflexivity|].
    apply Forall_app. split; [exact Hall1|]. simpl.
    constructor; [intros c; discriminate|].
    apply Forall_app. split; [|repeat constructor; intros c; discriminate].
    apply example_operands_lines in E0.
    apply Forall_impl with (2 := E0). intros [s t] Hs c. simpl in Hs.
    subst s. discriminate.
  - injection H as <- <-. auto.
Qed.

Lemma example_default_unreachable_witness :
  0 = 0 /\
  Forall (fun e => forall c, e <> (to_stderr, unknown_return_line c))
    [ (to_stderr, append "Error : unknown option 'x'" nl);
      (to_stderr, usage_line);
      (to_stderr, append "For help : example -h" nl);
      (to_stdout, nl) ].
Proof.
  apply (example_default_unreachable 5 None 2 [Some "prog"; Some "-x"]).
  reflexivity.
Defined.

(** ** [main] ends *)

Lemma vector_size_skipn_le (argv : arg_vector) (n : nat) :
  (vector_size (skipn n argv) <= vector_size argv)%nat.
Proof.
  revert n. induction argv as [|e argv IH]; intros [|n]; simpl; try lia.
  specialize (IH n). lia.
Qed.

Lemma example_loop_ends pgmptr argc argv :
  vector_ok argc argv ->
  (forall i, 0 <= i < argc -> exists tok, argv_at argv i = Ok (Some tok)) ->
  forall fuel g,
    reachable argc argv g -> (ahead argv g < fuel)%nat ->
    exists out g',
      example_loop fuel pgmptr argc argv g = Ok (Some (out, g')) /\
      reachable argc argv g'.
Proof.
  intros Hv Hnn. induction fuel as [|fuel IH]; intros g Hr Hf; [lia|].
  destruct (reachable_inv _ _ _ Hr) as (Hi & Hin).
  pose proof (reachable_cursor_ok _ _ _ Hr) as Hok.
  destruct (getopt_total argc argv example_opt_str g Hv ltac:(lia) Hin)
    as (c & g1 & H).
  assert (reachable argc argv g1) as Hr1
    by now apply reach_call with g example_opt_str c.
  simpl. rewrite H. simpl.
  destruct (Z.eqb_spec c (-1)) as [->|Hc]; [eauto|].
  destruct (getopt_no_scan _ _ _ _ _ _ Hok H) as [?|Hs]; [contradiction|].
  pose proof (getopt_progress _ _ _ _ _ _ H Hs) as Hp.
  destruct (example_case_total argv c g1) as (out & Hout).
  { destruct (example_returns _ _ _ _ _ Hok H)
      as [?|[?|[?|[?|[?|[?|[?|E]]]]]]]; auto 10; [contradiction|].
    subst c. do 6 right. split; [reflexivity|].
    now apply example_filename with argc g. }
  rewrite Hout. simpl.
  destruct (IH g1 Hr1) as (rest & g' & Hl & Hr'); [lia|].
  rewrite Hl. simpl. eauto.
Qed.

(** The entries from [i] up to [argc], as [main] lists them. *)
Lemma example_operands_ends argc argv :
  argc <= INT_MAX ->
  (forall i, 0 <= i < argc -> exists tok, argv_at argv i = Ok (Some tok)) ->
  forall fuel g,
    0 <= optind g -> (Z.to_nat (argc - optind g) < fuel)%nat ->
    exists g',
      example_operands fuel argc argv g
      = Ok (Some (map (fun e => (to_stdout,
                                 append match e with
                                        | Some tok => cstr tok
                                        | None => EmptyString
                                        end " "))
                    (firstn (Z.to_nat (argc - optind g))
                       (skipn (Z.to_nat (optind g)) argv)), g')).
Proof.
  intros Hargc Hnn. induction fuel as [|fuel IH]; intros g Hi Hf; [lia|].
  simpl. destruct (Z.ltb_spec (optind g) argc) as [Hlt|Hge].
  - destruct (Hnn (optind g)) as (tok & Ht); [lia|].
    rewrite Ht. simpl. rewrite int_succ_ok by lia. simpl.
    destruct (IH (set_optind (optind g + 1) g)) as (g' & H);
      [simpl; lia | simpl; lia |].
    rewrite H. simpl. exists g'. do 3 f_equal.
    destruct (argv_at_nth _ _ _ Ht) as (_ & Hnth).
    replace (Z.to_nat (argc - optind g))
      with (S (Z.to_nat (argc - (optind g + 1)))) by lia.
    replace (Z.to_nat (optind g + 1)) with (S (Z.to_nat (optind g))) by lia.
    clear - Hnth. revert Hnth. generalize (Z.to_nat (optind g)).
    generalize (Z.to_nat (argc - (optind g + 1))). intros m n. revert n.
    induction argv as [|e argv IHa]; intros [|n] Hnth; try discriminate;
      simpl in *.
    + now injection Hnth as ->.
    + now apply IHa.
  - exists g. replace (Z.to_nat (argc - optind g)) with 0%nat by lia.
    reflexivity.
Qed.

(** X11: [main] ends, with status 0, on every vector whose entries below
    [argc] are texts: neither loop goes on for ever and nothing undefined is
    done; the fuel that is enough is the size of the vector. *)
Theorem example_terminates fuel pgmptr argc argv :
  vector_ok argc argv ->
  (forall i, 0 <= i < argc -> exists tok, argv_at argv i = Ok (Some tok)) ->
  (vector_size argv + Z.to_nat argc < fuel)%nat ->
  exists out, example_main fuel pgmptr argc argv = Ok (Some (out, 0)).
Proof.
  intros Hv Hnn Hf. unfold example_main.
  assert (reachable argc argv (set_opterr 0 initial)) as Hr
    by (apply reach_start; reflexivity).
  destruct (example_loop_ends pgmptr argc argv Hv Hnn fuel _ Hr)
    as (out1 & g1 & Hl & Hr1).
  { unfold ahead. simpl optind.
    pose proof (vector_size_skipn_le argv (Z.to_nat 1)). lia. }
  rewrite Hl. simpl.
  destruct (reachable_inv _ _ _ Hr1) as (Hi & _).
  destruct (optind g1 <? argc); [|eauto].
  destruct (example_operands_ends argc argv (proj1 Hv) Hnn fuel g1)
    as (g2 & Ho); [lia | lia |].
  rewrite Ho. simpl. eauto.
Qed.

Lemma example_terminates_witness :
  exists out,
    example_main 20 None 3 [Some "prog"; Some "-v"; Some "file"]
    = Ok (Some (out, 0)).
Proof.
  apply example_terminates.
  - split; [unfold INT_MAX; lia|]. split; [simpl; lia|].
    repeat constructor; unfold INT_MAX; simpl; lia.
  - intros i Hi.
    assert (i = 0 \/ i = 1 \/ i = 2) as [->|[->| ->]] by lia;
      eexists; reflexivity.
  - simpl. lia.
Defined.

(** X12: behind what the options have made it print, [main] prints a new
    line and then, when the scan has ended with the index below [argc], the
    entries from that index up to [argc] in their order, each followed by a
    blank: the arguments [getopt] has left alone. *)
Theorem example_lists_operands fuel pgmptr argc argv out1 g1 :
  argc <= INT_MAX ->
  (forall i, 0 <= i < argc -> exists tok, argv_at argv i = Ok (Some tok)) ->
  0 <= optind g1 -> (Z.to_nat (argc - optind g1) < fuel)%nat ->
  example_loop fuel pgmptr argc argv (set_opterr 0 initial)
  = Ok (Some (out1, g1)) ->
  example_main fuel pgmptr argc argv
  = Ok (Some
          (out1 ++ [(to_stdout, nl)] ++
           (if optind g1 <? argc then
              [(to_stdout, "non-option argv elements : ")] ++
              map (fun e => (to_stdout,
                             append match e with
                                    | Some tok => cstr tok
                                    | None => EmptyString
                                    end " "))
                (firstn (Z.to_nat (argc - optind g1))
                   (skipn (Z.to_nat (optind g1)) argv)) ++
              [(to_stdout, nl)]
            else []), 0)).
Proof.
  intros Hargc Hnn Hi Hf Hl. unfold example_main. rewrite Hl. simpl.
  destruct (optind g1 <? argc).
  - destruct (example_operands_ends argc argv Hargc Hnn fuel g1 Hi Hf)
      as (g2 & Ho).
    rewrite Ho. simpl. now rewrite <- app_assoc.
  - reflexivity.
Qed.

Lemma example_lists_operands_witness :
  example_main 20 None 4 [Some "prog"; Some "-v"; Some "one"; Some "two"]
  = Ok (Some
          ([(to_stdout, append "Version 1.01" nl)] ++ [(to_stdout, nl)] ++
           [(to_stdout, "non-option argv elements : ")] ++
           [(to_stdout, "one "); (to_stdout, "two ")] ++
           [(to_stdout, nl)], 0)).
Proof.
  apply (example_lists_operands 20 None 4
           [Some "prog"; Some "-v"; Some "one"; Some "two"]
           [(to_stdout, append "Version 1.01" nl)]
           {| optarg := None; optind := 2; opterr := 0; optopt := 118;
              arg_idx := 0; stderr := [] |}).
  - unfold INT_MAX; lia.
  - intros i Hi.
    assert (i = 0 \/ i = 1 \/ i = 2 \/ i = 3) as [->|[->|[->| ->]]] by lia;
      eexists; reflexivity.
  - simpl; lia.
  - simpl; lia.
  - reflexivity.
Defined.

(** ** A command line of flags and operands *)

(** The [switch] on a flag prints the same lines whatever the state. *)
Lemma example_case_flag argv c g g0 :
  c = 104 \/ c = 118 \/ c = 97 \/ c = 49 ->
  example_case argv c g = example_case argv c g0 /\
  exists out, example_case argv c g0 = Ok out.
Proof.
  intros [->|[->|[->| ->]]]; unfold example_case; simpl; eauto.
Qed.

(** The loop of [main] over calls that return flags. *)
Lemma example_loop_calls pgmptr argc argv g0 :
  forall n g rs g1,
    getopt_calls n argc argv example_opt_str g = Ok (rs, g1) ->
    opterr g = 0 ->
    Forall (fun c => c = 104 \/ c = 118 \/ c = 97 \/ c = 49) rs ->
    opterr g1 = 0 /\
    forall fuel,
      example_loop (n + fuel) pgmptr argc argv g
      = q <- example_loop fuel pgmptr argc argv g1 ;;
        Ok (option_map
              (fun r =>
                 (flat_map (fun c => match example_case argv c g0 with
                                     | Ok out => out
                                     | Fault _ => []
                                     end) rs ++ fst r, snd r)) q).
Proof.
  induction n as [|n IH]; intros g rs g1 H He Hall; simpl in H.
  - injection H as <- <-. split; [exact He|]. intros fuel. simpl.
    destruct (example_loop fuel pgmptr argc argv g) as [[[out g']|]|f];
      reflexivity.
  - bind_inv H. destruct x as [c g']. bind_inv H.
    destruct x as [rs' g1']. simpl in *. injection H as <- <-.
    inversion Hall as [|? ? Hc Hall']; subst.
    destruct (getopt_said_quiet pgmptr _ _ _ _ _ _ (or_introl He) E)
      as (Hsaid & _ & He').
    destruct (IH g' rs' g1' E0) as (He1 & Hloop); [congruence | exact Hall' |].
    split; [exact He1|]. intros fuel. simpl. rewrite E. simpl.
    assert ((c =? -1) = false) as ->
      by (apply Z.eqb_neq; destruct Hc as [->|[->|[->| ->]]]; discriminate).
    rewrite Hsaid, Hloop.
    destruct (example_case_flag argv c g' g0 Hc) as (-> & out & Hout).
    rewrite Hout. simpl.
    destruct (example_loop fuel pgmptr argc argv g1') as [[[rest g2]|]|f];
      simpl; try reflexivity.
    now rewrite app_assoc.
Qed.

Lemma string_of_list_ascii_cstr (cs : list ascii) :
  Forall (fun a => a <> NUL) cs ->
  cstr (string_of_list_ascii cs) = string_of_list_ascii cs.
Proof.
  induction 1 as [|a cs N _ IH]; simpl; [reflexivity|].
  now rewrite (eqb_NUL_false _ N), IH.
Qed.

(** The flags of [main] take no argument and are returned as they are. *)
Lemma example_flag_kind (a : ascii) :
  In a ["h"; "v"; "a"; "1"]%char ->
  takes_no_argument example_opt_str a /\
  returned_for example_opt_str a = int_of_char a /\
  (int_of_char a = 104 \/ int_of_char a = 118 \/ int_of_char a = 97 \/
   int_of_char a = 49) /\
  a <> "-"%char.
Proof.
  intros [<-|[<-|[<-|[<-|[]]]]]; repeat split; auto; try discriminate;
    left; reflexivity.
Qed.

Lemma argv_at_map_Some (l : list string) (i : nat) (t : string) :
  nth_error l i = Some t -> argv_at (map Some l) (Z.of_nat i) = Ok (Some t).
Proof.
  intros H. unfold argv_at. destruct (Z.ltb_spec (Z.of_nat i) 0); [lia|].
  rewrite Nat2Z.id, (map_nth_error Some _ _ H). reflexivity.
Qed.

(** X13: [main] on a command line of flags followed by operands.  When the
    vector is the program name, then entries "-" ++ cs with every [cs] a
    non-empty list of the flags 'h', 'v', 'a', '1', then operands of which
    the first does not begin with '-', [main] prints for each flag, in the
    order of the command line, what the [switch] prints for it, then a new
    line, then the operands in their order (if there are any), and ends
    with status 0. *)
Theorem example_flags_then_operands fuel pgmptr argc argv prog
    (entries : list (list ascii)) (operands : list string) :
  argv = map Some (prog :: map (fun cs => String "-" (string_of_list_ascii cs))
                            entries ++ operands) ->
  argc = Z.of_nat (List.length argv) ->
  vector_ok argc argv ->
  Forall (fun cs => cs <> [] /\
                    Forall (fun a => In a ["h"; "v"; "a"; "1"]%char) cs)
    entries ->
  first_char (hd EmptyString operands) <> "-"%char ->
  (List.length (List.concat entries) + List.length operands < fuel)%nat ->
  example_main fuel pgmptr argc argv
  = Ok (Some
          (flat_map (fun a =>
                       match example_case argv (int_of_char a) initial with
                       | Ok out => out
                       | Fault _ => []
                       end) (List.concat entries) ++
           [(to_stdout, nl)] ++
           match operands with
           | [] => []
           | _ :: _ =>
               [(to_stdout, "non-option argv elements : ")] ++
               map (fun t => (to_stdout, append (cstr t) " ")) operands ++
               [(to_stdout, nl)]
           end, 0)).
Proof.
  intros Hargv Hargc Hv Hall Hop Hfuel.
  set (dash := fun cs => String "-" (string_of_list_ascii cs)) in *.
  set (g0 := set_opterr 0 initial).
  assert (List.length argv
          = S (List.length entries + List.length operands)) as Hlen
    by (rewrite Hargv; simpl; now rewrite length_map, length_app, length_map).
  (* the calls over the flags *)
  destruct (getopt_calls_entries argc argv example_opt_str entries Hv) with g0
    as (g1 & Hcalls & Hi1 & Hj1).
  { apply Forall_impl with (2 := Hall). intros cs (Hne & Hcs).
    split; [exact Hne|]. split.
    - destruct cs as [|c cs]; [contradiction|].
      inversion Hcs as [|? ? Hc _]; subst.
      destruct (example_flag_kind c Hc) as ((N & _) & _ & _ & Hd).
      simpl. rewrite (eqb_NUL_false _ N). intros H. injection H as H _.
      contradiction.
    - apply Forall_impl with (2 := Hcs). intros a Ha.
      now destruct (example_flag_kind a Ha). }
  { reflexivity. }
  { change (optind g0) with 1. rewrite Hargc, Hlen. lia. }
  { intros i cs Hnth. rewrite Hargv.
    change (optind g0 + Z.of_nat i) with (1 + Z.of_nat i).
    replace (1 + Z.of_nat i) with (Z.of_nat (S i)) by lia.
    apply argv_at_map_Some. simpl.
    rewrite nth_error_app1 by (rewrite length_map; apply nth_error_Some; congruence).
    change (String "-" (string_of_list_ascii cs)) with (dash cs).
    now apply map_nth_error. }
  change (optind g0) with 1 in Hi1.
  assert (map (returned_for example_opt_str) (List.concat entries)
          = map int_of_char (List.concat entries)) as Hrs.
  { apply map_ext_in. intros a Ha. apply in_concat in Ha.
    destruct Ha as (cs & Hcs & Ha). rewrite Forall_forall in Hall.
    destruct (Hall cs Hcs) as (_ & Hfl). rewrite Forall_forall in Hfl.
    now destruct (example_flag_kind a (Hfl a Ha)) as (_ & ? & _). }
  rewrite Hrs in Hcalls.
  destruct (example_loop_calls pgmptr argc argv initial _ _ _ _ Hcalls eq_refl)
    as (He1 & Hloop).
  { apply Forall_forall. intros c Hc. apply in_map_iff in Hc.
    destruct Hc as (a & <- & Ha). apply in_concat in Ha.
    destruct Ha as (cs & Hcs & Ha). rewrite Forall_forall in Hall.
    destruct (Hall cs Hcs) as (_ & Hfl). rewrite Forall_forall in Hfl.
    now destruct (example_flag_kind a (Hfl a Ha)) as (_ & _ & ? & _). }
  (* the call behind them *)
  assert (no_more argc argv g1) as Hend.
  { destruct operands as [|t operands].
    - apply no_more_end; [exact Hj1|]. rewrite Hargc, Hlen, Hi1. simpl List.length. lia.
    - apply no_more_operand with t; [exact Hj1 | | exact Hop].
      rewrite Hi1, Hargv.
      replace (1 + Z.of_nat (List.length entries))
        with (Z.of_nat (S (List.length entries))) by lia.
      apply argv_at_map_Some. simpl.
      rewrite nth_error_app2 by (rewrite length_map; lia).
      rewrite length_map, Nat.sub_diag. reflexivity. }
  pose proof (getopt_no_more argc argv example_opt_str g1 Hend) as Hlast.
  (* the loop *)
  set (n := List.length (List.concat entries)) in *.
  assert (exists f, fuel = (n + S f)%nat) as (f & Hf)
    by (exists (fuel - n - 1)%nat; lia).
  unfold example_main. fold g0. rewrite Hf, Hloop.
  simpl example_loop. rewrite Hlast. simpl.
  unfold getopt_said. simpl. rewrite skipn_all. simpl.
  rewrite app_nil_r, flat_map_concat_map, map_map, <- flat_map_concat_map.
  (* the operands *)
  assert (forall i, 0 <= i < argc ->
                    exists tok, argv_at argv i = Ok (Some tok)) as Hnn.
  { intros i Hi. rewrite Hargv.
    destruct (nth_error (prog :: map dash entries ++ operands) (Z.to_nat i))
      as [t|] eqn:E.
    - exists t. rewrite <- (Z2Nat.id i) by lia. now apply argv_at_map_Some.
    - apply nth_error_None in E. rewrite Hargv, length_map in Hargc. lia. }
  rewrite Hi1. destruct operands as [|t operands].
  - assert ((1 + Z.of_nat (List.length entries) <? argc) = false) as ->
      by (apply Z.ltb_ge; rewrite Hargc, Hlen; simpl List.length; lia).
    reflexivity.
  - assert ((1 + Z.of_nat (List.length entries) <? argc) = true) as ->
      by (apply Z.ltb_lt; rewrite Hargc, Hlen; simpl List.length; lia).
    destruct (example_operands_ends argc argv (proj1 Hv) Hnn (n + S f)
                (set_optarg None g1)) as (g2 & Ho).
    { simpl. lia. }
    { simpl. rewrite Hi1, Hargc, Hlen. simpl List.length in *. lia. }
    rewrite Ho. simpl optind. rewrite Hi1.
    replace (Z.to_nat (argc - (1 + Z.of_nat (List.length entries))))
      with (List.length (t :: operands))
      by (rewrite Hargc, Hlen; simpl List.length; lia).
    replace (Z.to_nat (1 + Z.of_nat (List.length entries)))
      with (S (List.length (map dash entries)))
      by (rewrite length_map; lia).
    assert (firstn (List.length (t :: operands))
              (skipn (S (List.length (map dash entries))) argv)
            = map Some (t :: operands)) as Hrest.
    { rewrite Hargv.
      change (map Some (prog :: map dash entries ++ t :: operands))
        with (Some prog :: map Some (map dash entries ++ t :: operands)).
      change (skipn (S (List.length (map dash entries)))
                (Some prog :: map Some (map dash entries ++ t :: operands)))
        with (skipn (List.length (map dash entries))
                (map Some (map dash entries ++ t :: operands))).
      rewrite map_app, skipn_app, skipn_all2 by (rewrite !length_map; lia).
      rewrite !length_map, Nat.sub_diag. simpl skipn. simpl app.
      rewrite <- (length_map Some (t :: operands)). apply firstn_all. }
    rewrite Hrest, map_map. simpl. now rewrite <- !app_assoc.
Qed.

Lemma example_flags_then_operands_witness :
  example_main 10 None 5
    [Some "example"; Some "-va"; Some "-1"; Some "in"; Some "out"]
  = Ok (Some ([ (to_stdout, append "Version 1.01" nl);
                (to_stdout, append "You supplied the option flag 'a'" nl);
                (to_stdout, append "You supplied the option flag '1'" nl);
                (to_stdout, nl);
                (to_stdout, "non-option argv elements : ");
                (to_stdout, "in ");
                (to_stdout, "out ");
                (to_stdout, nl) ], 0)).
Proof.
  apply (example_flags_then_operands 10 None 5
           [Some "example"; Some "-va"; Some "-1"; Some "in"; Some "out"]
           "example" [["v"; "a"]; ["1"]]%char ["in"; "out"]).
  - reflexivity.
  - reflexivity.
  - split; [unfold INT_MAX; lia|]. split; [simpl; lia|].
    repeat constructor; unfold INT_MAX; simpl; lia.
  - constructor; [|constructor; [|constructor]]; (split; [discriminate|]).
    + constructor; [simpl; auto | constructor; [simpl; auto 6 | constructor]].
    + constructor; [simpl; auto 6 | constructor].
  - discriminate.
  - simpl. lia.
Defined.

(** ** What [main] prints for one option *)

(** X14: the option 'f' in [main].  With the file name in the rest of the
    entry or in the next entry, [getopt] returns 'f' and the [switch]
    prints that name between double quotes; with no name and no entry
    left, [getopt] returns ':' and the [switch] prints the missing-argument
    line for 'f' and the short usage. *)
Theorem example_filename_line argc argv g tok j :
  scans argc argv g tok j "f" -> no_overflow argc g j ->
  (forall n, char_at tok (j + 1) = Ok n -> n <> NUL ->
     exists g',
       getopt argc argv example_opt_str g = Ok (102, g') /\
       example_case argv 102 g'
       = Ok [(to_stdout,
              append "You supplied the filename "
                (append dq (append (cstr (drop (Z.to_nat (j + 1)) tok))
                              (append dq nl))))]) /\
  (forall next, char_at tok (j + 1) = Ok NUL -> optind g + 1 < argc ->
     argv_at argv (optind g + 1) = Ok (Some next) ->
     exists g',
       getopt argc argv example_opt_str g = Ok (102, g') /\
       example_case argv 102 g'
       = Ok [(to_stdout,
              append "You supplied the filename "
                (append dq (append (cstr next) (append dq nl))))]) /\
  (char_at tok (j + 1) = Ok NUL -> argc <= optind g + 1 ->
   exists g',
     getopt argc argv example_opt_str g = Ok (58, g') /\
     example_case argv 58 g'
     = Ok ((to_stderr, append "Error : missing argument to option 'f'" nl)
             :: usage_err)).
Proof.
  intros Hs (Hargc & Hi & Hj).
  destruct (scans_char _ _ _ _ _ _ Hs) as (Ht & _).
  assert (option_kind example_opt_str "f" = Ok WithArgument) as Hk
    by reflexivity.
  split; [|split].
  - intros n Hn N.
    rewrite (getopt_glued argc argv example_opt_str g tok j "f" Hs Hj n Hk Hn N Hi).
    eexists. split; [reflexivity|].
    unfold example_case, optarg_text. simpl. rewrite Ht. reflexivity.
  - intros next Hn Hc He.
    rewrite (getopt_next argc argv example_opt_str g tok j "f" Hs Hj
               (Some next) Hk Hn Hc He) by lia.
    eexists. split; [reflexivity|].
    unfold example_case, optarg_text. simpl. rewrite He. reflexivity.
  - intros Hn Hc.
    rewrite (getopt_missing argc argv example_opt_str g tok j "f" Hs Hj Hk Hn
               Hc Hi).
    eexists. split; reflexivity.
Qed.

Lemma example_filename_line_witness :
  exists g',
    getopt 2 [Some "prog"; Some "-fin.txt"] example_opt_str initial
    = Ok (102, g') /\
    example_case [Some "prog"; Some "-fin.txt"] 102 g'
    = Ok [(to_stdout,
           append "You supplied the filename "
             (append dq (append (cstr (drop (Z.to_nat (1 + 1)) "-fin.txt"))
                           (append dq nl))))].
Proof.
  apply (example_filename_line 2 [Some "prog"; Some "-fin.txt"] initial
           "-fin.txt" 1) with (n := "i"%char).
  - apply scans_new; try reflexivity.
    repeat split; discriminate.
  - unfold no_overflow, INT_MAX; simpl; lia.
  - reflexivity.
  - discriminate.
Defined.

(** X15: an unknown option in [main].  For a scanned character that is ':'
    or not one of "hva1f", [getopt] returns '?' and the [switch] prints the
    unknown-option line with that character and the short usage; nothing
    else is written. *)
Theorem example_unknown_line argc argv g tok j a :
  scans argc argv g tok j a -> no_overflow argc g j ->
  unknown_option_char example_opt_str a ->
  exists g',
    getopt argc argv example_opt_str g = Ok (63, g') /\
    stderr g' = stderr g /\
    example_case argv 63 g'
    = Ok ((to_stderr,
           append "Error : unknown option '" (String a (append "'" nl)))
            :: usage_err).
Proof.
  intros Hs (Hargc & Hi & Hj) Hu.
  destruct (scans_char _ _ _ _ _ _ Hs) as (_ & _ & N & _).
  apply (option_kind_unknown example_opt_str a N) in Hu.
  destruct (scans_next _ _ _ _ _ _ Hs) as (n & Hn).
  rewrite (getopt_unknown argc argv example_opt_str g tok j a Hs Hj n Hu Hn)
    by auto.
  eexists. split; [reflexivity|]. split.
  - simpl. apply printed_quiet. now right.
  - unfold example_case. simpl. now rewrite char_of_int_of_char.
Qed.

Lemma example_unknown_line_witness :
  exists g',
    getopt 2 [Some "prog"; Some "-x"] example_opt_str initial = Ok (63, g') /\
    stderr g' = stderr initial /\
    example_case [Some "prog"; Some "-x"] 63 g'
    = Ok ((to_stderr,
           append "Error : unknown option '" (String "x" (append "'" nl)))
            :: usage_err).
Proof.
  apply (example_unknown_line 2 [Some "prog"; Some "-x"] initial "-x" 1 "x").
  - apply scans_new; try reflexivity.
    repeat split; discriminate.
  - unfold no_overflow, INT_MAX; simpl; lia.
  - right. simpl.
    intros [H|[H|[H|[H|[H|[H|[H|H]]]]]]]; try discriminate; exact H.
Defined.

(** ** What [getopt] does not look at *)

Lemma argv_at_firstn argc (argv argv' : arg_vector) i :
  firstn (Z.to_nat argc) argv = firstn (Z.to_nat argc) argv' ->
  i < argc -> argv_at argv i = argv_at argv' i.
Proof.
  intros Hf Hi. unfold argv_at. destruct (Z.ltb_spec i 0); [reflexivity|].
  assert (nth_error argv (Z.to_nat i) = nth_error argv' (Z.to_nat i)) as ->;
    [|reflexivity].
  assert ((Z.to_nat i <? Z.to_nat argc)%nat = true) as Hlt
    by (apply Nat.ltb_lt; lia).
  pose proof (nth_error_firstn (Z.to_nat argc) argv (Z.to_nat i)) as H1.
  pose proof (nth_error_firstn (Z.to_nat argc) argv' (Z.to_nat i)) as H2.
  rewrite Hlt in H1, H2. congruence.
Qed.

Section BelowArgc.

Variables (argc : Z) (argv argv' : arg_vector).
Hypothesis Hsame : firstn (Z.to_nat argc) argv = firstn (Z.to_nat argc) argv'.

Lemma arg_char_below i j : i < argc -> arg_char argv i j = arg_char argv' i j.
Proof.
  intros Hi. unfold arg_char. now rewrite (argv_at_firstn argc argv argv').
Qed.

Lemma next_char_below g :
  optind g < argc -> next_char argv g = next_char argv' g.
Proof.
  intros Hi. unfold next_char. destruct (int_succ (arg_idx g)); simpl;
    [|reflexivity].
  now rewrite arg_char_below.
Qed.

Lemma new_entry_below g : new_entry argc argv g = new_entry argc argv' g.
Proof.
  unfold new_entry. destruct (Z.geb_spec (optind g) argc); [reflexivity|].
  now rewrite (argv_at_firstn argc argv argv').
Qed.

Lemma option_argument_below opt_str c g :
  optind g < argc ->
  option_argument argc argv opt_str c g
  = option_argument argc argv' opt_str c g.
Proof.
  intros Hi. unfold option_argument.
  destruct (int_succ (arg_idx g)) as [j|]; simpl; [|reflexivity].
  rewrite arg_char_below by assumption.
  destruct (arg_char argv' (optind g) j) as [r|]; simpl; [|reflexivity].
  destruct (Ascii.eqb r NUL); simpl; [|reflexivity].
  destruct (int_succ (optind g)) as [i|]; simpl; [|reflexivity].
  destruct (Z.ltb_spec i argc); [|reflexivity].
  now rewrite (argv_at_firstn argc argv argv').
Qed.

Lemma scan_option_below opt_str g :
  optind g < argc ->
  scan_option argc argv opt_str g = scan_option argc argv' opt_str g.
Proof.
  intros Hi. unfold scan_option. rewrite arg_char_below by assumption.
  destruct (arg_char argv' (optind g) (arg_idx g)) as [a|]; simpl;
    [|reflexivity].
  assert (forall g1 : state,
            optind g1 = optind g -> next_char argv g1 = next_char argv' g1)
    as Hnext by (intros g1 E; apply next_char_below; lia).
  rewrite !print_err_ok. simpl.
  rewrite Hnext by reflexivity.
  destruct (strchr opt_str (int_of_char a)); [|reflexivity].
  destruct (int_of_char a =? 58); [reflexivity|].
  destruct (char_at opt_str (z + 1)) as [n|]; simpl; [|reflexivity].
  destruct (Ascii.eqb n ":").
  - now apply option_argument_below.
  - now rewrite Hnext.
Qed.

End BelowArgc.

(** X16: [getopt] never looks at [argv[argc]] or beyond: two vectors with
    the same entries below [argc] give the same return and the same state,
    from the start of an entry and from inside an entry below [argc]. *)
Theorem getopt_below_argc argc argv argv' opt_str g :
  firstn (Z.to_nat argc) argv = firstn (Z.to_nat argc) argv' ->
  (arg_idx g <> 0 -> optind g < argc) ->
  getopt argc argv opt_str g = getopt argc argv' opt_str g.
Proof.
  intros Hsame Hin. unfold getopt. simpl.
  destruct (Z.eqb_spec (arg_idx g) 0) as [H0|Hj].
  - rewrite (new_entry_below argc argv argv' Hsame).
    destruct (new_entry argc argv' (set_optarg None g)) as [[r g1|g1]|] eqn:E;
      simpl; try reflexivity.
    apply scan_option_below; [assumption|].
    unfold new_entry in E. simpl in E.
    destruct (Z.geb_spec (optind g) argc); [discriminate|].
    bind_inv E. destruct x; [|discriminate]. bind_inv E.
    destruct (negb (Ascii.eqb x "-")); [discriminate|].
    destruct (strcmp s "-" =? 0); [discriminate|].
    destruct (strcmp s "--" =? 0); bind_inv E; [discriminate|].
    injection E as <-. simpl. lia.
  - simpl. apply scan_option_below; [assumption|]. simpl. auto.
Qed.

Lemma getopt_below_argc_witness :
  getopt 2 [Some "prog"; Some "-f"; Some "beyond"] "f:" initial
  = getopt 2 [Some "prog"; Some "-f"] "f:" initial.
Proof.
  apply getopt_below_argc.
  - reflexivity.
  - intros H. now destruct H.
Defined.

(** X17: the line [getopt] writes for a missing argument, when diagnostics
    are on: the name of the program, " : argument required for option '-",
    the option, a quote and a new line; the call returns '?'. *)
Theorem missing_argument_line argc argv opt_str g tok j a pgmptr :
  scans argc argv g tok j a -> no_overflow argc g j ->
  option_kind opt_str a = Ok WithArgument ->
  char_at tok (j + 1) = Ok NUL -> argc <= optind g + 1 ->
  opterr g <> 0 -> first_char opt_str <> ":"%char ->
  exists g',
    getopt argc argv opt_str g = Ok (63, g') /\
    getopt_said pgmptr g g'
    = [(to_stderr,
        append (cstr (short_name pgmptr))
          (append " : argument required for option '-"
             (String a (append "'" nl))))].
Proof.
  intros Hs (Hargc & Hi & Hj) Hk Hn Hlast He Hc.
  rewrite (getopt_missing argc argv opt_str g tok j a Hs Hj Hk Hn Hlast Hi).
  rewrite (proj2 (Ascii.eqb_neq _ _) Hc).
  eexists. split; [reflexivity|].
  unfold getopt_said, printed. simpl.
  rewrite (proj2 (Z.eqb_neq _ _) He), (proj2 (Ascii.eqb_neq _ _) Hc). simpl.
  rewrite skipn_app, skipn_all, Nat.sub_diag. simpl.
  unfold diag_line. simpl. now rewrite char_of_int_of_char.
Qed.

Lemma missing_argument_line_witness :
  exists g',
    getopt 2 [Some "prog"; Some "-f"] "f:" initial = Ok (63, g') /\
    getopt_said None initial g'
    = [(to_stderr,
        append (cstr (short_name None))
          (append " : argument required for option '-"
             (String "f" (append "'" nl))))].
Proof.
  apply (missing_argument_line 2 [Some "prog"; Some "-f"] "f:" initial "-f" 1
           "f").
  - apply scans_new; try reflexivity.
    repeat split; discriminate.
  - unfold no_overflow, INT_MAX; simpl; lia.
  - reflexivity.
  - reflexivity.
  - discriminate.
  - discriminate.
  - discriminate.
Defined.
